(** * christmas-tree-2.0: gesture classifier and scene choreographer

    A shallow embedding of [gestureService.ts] (the hand-pose classifier)
    and of [threeScene.ts] (the particle choreographer), with the
    properties of the written specification stated over it.

    JavaScript numbers are kept abstract behind the interface [JSNumber]:
    the program text is translated once, operation by operation, and is
    then read at two number systems,
    - IEEE binary64 ([PrimFloat]), which is what the engine computes with
      and which evaluates inside Rocq, and
    - the real numbers, where [Math.cos], [Math.acos] and friends are the
      mathematical functions and where the analytic parts of the
      specification (formulas "for some height", radius bands) are decided.
    Branch-structure properties are proved once, for every number system. *)

From Stdlib Require Import Floats Uint63.
From Stdlib Require Import QArith ZArith Reals Lra Lia String Bool Arith List.
Import ListNotations.

Close Scope Q_scope.
Set Implicit Arguments.

(* ================================================================== *)
(** * JavaScript numbers *)

Declare Scope js_scope.
Delimit Scope js_scope with js.

(** The arithmetic the two source files use on [number]s.  [lit] is a
    numeric literal of the program text, [of_nat] the number an array
    index or an array length denotes.  [nlt] is [<] (and [a > b] is
    [b < a], as in ECMAScript); [nle] is [<=], which the program never
    evaluates and which only serves to state properties. *)
Class JSNumber : Type := {
  num : Type;
  lit : Q -> num;
  of_nat : nat -> num;
  nadd : num -> num -> num;
  nsub : num -> num -> num;
  nmul : num -> num -> num;
  ndiv : num -> num -> num;
  nlt : num -> num -> bool;
  nle : num -> num -> bool
}.

Arguments lit {_} _%_Q.

Notation "a + b" := (nadd a b) : js_scope.
Notation "a - b" := (nsub a b) : js_scope.
Notation "a * b" := (nmul a b) : js_scope.
Notation "a / b" := (ndiv a b) : js_scope.
Notation "a <? b" := (nlt a b) : js_scope.
Notation "a >? b" := (nlt b a) (only parsing) : js_scope.
Notation "a <=? b" := (nle a b) : js_scope.

(** The order facts the properties rely on: [a <= b] excludes [b < a],
    a chain [a < b < c] excludes [c < a], and the classifier's two
    thresholds are in order. *)
Class JSNumberLaws (J : JSNumber) : Prop := {
  nle_not_nlt : forall a b : num, nle a b = true -> nlt b a = false;
  nlt_chain : forall a b c : num,
      nlt a b = true -> nlt b c = true -> nlt c a = false;
  fist_below_open : nlt (lit 0.25) (lit 0.4) = true
}.

(** The part of the host's [Math] object that gestureService.ts calls. *)
Class GestureMath (J : JSNumber) : Type := {
  Math_hypot : num -> num -> num -> num
}.

(** The part of the host's [Math] object that threeScene.ts calls.
    [Math_floor_index x] is [Math.floor(x)] read as an array index:
    [None] when the floor is not a non-negative integer (the array
    access then yields [undefined]). *)
Class SceneMath (J : JSNumber) : Type := {
  Math_PI : num;
  Math_cos : num -> num;
  Math_sin : num -> num;
  Math_acos : num -> num;
  Math_sqrt : num -> num;
  Math_floor_index : num -> option nat
}.

(* ------------------------------------------------------------------ *)
(** ** Numbers as IEEE binary64 *)

Module F64.

Definition of_Z (z : Z) : float :=
  match z with
  | Z0 => PrimFloat.of_uint63 0%uint63
  | Zpos _ => PrimFloat.of_uint63 (Uint63.of_Z z)
  | Zneg p => PrimFloat.opp (PrimFloat.of_uint63 (Uint63.of_Z (Zpos p)))
  end.

(** A decimal literal denotes the double nearest to it; the correctly
    rounded quotient of two exactly represented integers is that double. *)
Definition of_decimal (q : Q) : float :=
  PrimFloat.div (of_Z (Qnum q)) (of_Z (Zpos (Qden q))).

#[global] Instance number : JSNumber := {|
  num := float;
  lit := of_decimal;
  of_nat := fun n => of_Z (Z.of_nat n);
  nadd := PrimFloat.add;
  nsub := PrimFloat.sub;
  nmul := PrimFloat.mul;
  ndiv := PrimFloat.div;
  nlt := PrimFloat.ltb;
  nle := PrimFloat.leb
|}.

(** [Math.hypot] of three arguments as ECMAScript lays it down: +∞ as
    soon as one argument is infinite, otherwise NaN when one is NaN,
    otherwise an approximation of the square root of the sum of the
    squares.  Which approximation is the engine's business; this is the
    direct one, and an engine that scales and compensates can differ
    from it in the last bit.  It only serves to run the classifier on
    sample hands: every theorem is about an arbitrary [Math_hypot]. *)
Definition hypot (x y z : float) : float :=
  if PrimFloat.is_infinity x || PrimFloat.is_infinity y
     || PrimFloat.is_infinity z
  then PrimFloat.infinity
  else if PrimFloat.is_nan x || PrimFloat.is_nan y || PrimFloat.is_nan z
  then PrimFloat.nan
  else PrimFloat.sqrt (PrimFloat.add (PrimFloat.add (PrimFloat.mul x x)
                                                    (PrimFloat.mul y y))
                                     (PrimFloat.mul z z)).

#[global] Instance gesture_math : GestureMath number :=
  @Build_GestureMath number hypot.

End F64.

(* ------------------------------------------------------------------ *)
(** ** Numbers as reals *)

Module Real.

Definition ltb (a b : R) : bool := if Rlt_dec a b then true else false.
Definition leb (a b : R) : bool := if Rle_dec a b then true else false.

#[global] Instance number : JSNumber := {|
  num := R;
  lit := Q2R;
  of_nat := INR;
  nadd := Rplus;
  nsub := Rminus;
  nmul := Rmult;
  ndiv := Rdiv;
  nlt := ltb;
  nle := leb
|}.

#[global] Instance gesture_math : GestureMath number :=
  @Build_GestureMath number
    (fun x y z : R => R_sqrt.sqrt (x * x + y * y + z * z)%R).

Definition floor_index (x : R) : option nat :=
  if Z_lt_dec (Int_part x) 0%Z then None else Some (Z.to_nat (Int_part x)).

#[global] Instance scene_math : SceneMath number :=
  @Build_SceneMath number PI cos sin acos R_sqrt.sqrt floor_index.

End Real.

(* ================================================================== *)
(** * types.ts *)

Inductive SceneMode : Type := TREE | SCATTER | FOCUS.

Definition SceneMode_eqb (a b : SceneMode) : bool :=
  match a, b with
  | TREE, TREE | SCATTER, SCATTER | FOCUS, FOCUS => true
  | _, _ => false
  end.

(* ================================================================== *)
(** * gestureService.ts *)

Section GestureService.

Context {J : JSNumber} {M : GestureMath J}.
Local Open Scope js_scope.

(** One tracked point of the hand, as the detector reports it. *)
Record Landmark : Type := mkLandmark { lx : num; ly : num; lz : num }.

Record Point2 : Type := mkPoint2 { px : num; py : num }.

Record GestureData : Type := mkGestureData {
  gmode : SceneMode;
  palmCenter : option Point2
}.

(** [landmarks[i]]; reading a coordinate of a missing entry raises a
    TypeError, which is [None] below. *)
Definition at_index (landmarks : list Landmark) (i : nat) : option Landmark :=
  nth_error landmarks i.

Definition bind {A B : Type} (o : option A) (k : A -> option B) : option B :=
  match o with Some a => k a | None => None end.

Notation "x <- o ;; k" := (bind o (fun x => k))
  (at level 61, o at next level, right associativity).

Definition wrist_dist (f wrist : Landmark) : num :=
  Math_hypot (lx f - lx wrist) (ly f - ly wrist) (lz f - lz wrist).

Definition pinch_dist (thumb index : Landmark) : num :=
  Math_hypot (lx thumb - lx index) (ly thumb - ly index) (lz thumb - lz index).

(** [dists.reduce((a, b) => a + b, 0) / dists.length] *)
Definition average (dists : list num) : num :=
  fold_left nadd dists (lit 0) / of_nat (length dists).

Definition processGestures (landmarks : list Landmark) : option SceneMode :=
  thumb <- at_index landmarks 4 ;;
  index <- at_index landmarks 8 ;;
  let pinchDist := pinch_dist thumb index in
  if pinchDist <? lit 0.05 then Some FOCUS
  else
    wrist <- at_index landmarks 0 ;;
    f12 <- at_index landmarks 12 ;;
    f16 <- at_index landmarks 16 ;;
    f20 <- at_index landmarks 20 ;;
    let dists := map (fun f => wrist_dist f wrist) [index; f12; f16; f20] in
    let avgDist := average dists in
    if avgDist <? lit 0.25 then Some TREE
    else if avgDist >? lit 0.4 then Some SCATTER
    else Some TREE.

(** What one run of [predict] hands to [onUpdate], once the detector
    has answered.  [results] is [results.landmarks]: absent, or the
    landmark sets of the detected hands. *)
Definition predict (results : option (list (list Landmark))) : option GestureData :=
  match results with
  | Some (landmarks :: _) =>
      mode <- processGestures landmarks ;;
      l9 <- at_index landmarks 9 ;;
      Some (mkGestureData mode (Some (mkPoint2 (lx l9) (ly l9))))
  | Some [] | None => Some (mkGestureData TREE None)
  end.

End GestureService.

(* ================================================================== *)
(** * threeScene.ts *)

(** How a method call ends: normally, or by a raised TypeError.  Either
    way the fields written before that point keep their new values, so
    both carry the state the call leaves behind. *)
Inductive Completion (A : Type) : Type :=
| Normal (s : A)
| Throw (s : A).

Arguments Normal {A} s.
Arguments Throw {A} s.

Definition state_of {A : Type} (c : Completion A) : A :=
  match c with Normal s | Throw s => s end.

Definition and_then {A : Type} (c : Completion A) (k : A -> Completion A)
  : Completion A :=
  match c with Normal s => k s | Throw s => Throw s end.

(** [array.forEach((p, i) => ...)] for a callback that rewrites the
    element it is given and threads a piece of global state [G]. *)
Fixpoint forEach {A G : Type} (f : A -> nat -> G -> A * G)
         (l : list A) (i : nat) (st : G) : list A * G :=
  match l with
  | [] => ([], st)
  | a :: rest =>
      let (a', st1) := f a i st in
      let (rest', st2) := forEach f rest (S i) st1 in
      (a' :: rest', st2)
  end.

Definition focus_is (focus : option nat) (i : nat) : bool :=
  match focus with Some k => Nat.eqb i k | None => false end.

Section ThreeScene.

Context {J : JSNumber} {SM : SceneMath J}.
Local Open Scope js_scope.

(** ** The pieces of three.js the scene relies on *)

Record Vector3 : Type := mkVector3 { vx : num; vy : num; vz : num }.
Record Euler : Type := mkEuler { ex : num; ey : num; ez : num }.

(** The transform of a [THREE.Mesh] or [THREE.Group]; geometry,
    materials and children play no part in the choreography. *)
Record Object3D : Type := mkObject3D {
  position : Vector3;
  rotation : Euler;
  scale : Vector3
}.

Definition zero3 : Vector3 := mkVector3 (lit 0) (lit 0) (lit 0).
Definition zeroE : Euler := mkEuler (lit 0) (lit 0) (lit 0).

(** [new THREE.Mesh(..)], [new THREE.Group()] *)
Definition new_Object3D : Object3D :=
  mkObject3D zero3 zeroE (mkVector3 (lit 1) (lit 1) (lit 1)).

(** [THREE.MathUtils.lerp(x, y, t)] is [(1 - t) * x + t * y]. *)
Definition MathUtils_lerp (x y t : num) : num := (lit 1 - t) * x + t * y.

(** [this.lerp(v, alpha)]: [this.x += (v.x - this.x) * alpha], and so on. *)
Definition Vector3_lerp (this v : Vector3) (alpha : num) : Vector3 :=
  mkVector3 (vx this + (vx v - vx this) * alpha)
            (vy this + (vy v - vy this) * alpha)
            (vz this + (vz v - vz this) * alpha).

(** [this.addScaledVector(v, s)]: [this.x += v.x * s], and so on. *)
Definition Vector3_addScaledVector (this v : Vector3) (s : num) : Vector3 :=
  mkVector3 (vx this + vx v * s) (vy this + vy v * s) (vz this + vz v * s).

(** ** Math.random

    The values the generator is going to return, and how many of them
    have been handed out. *)
Record Random : Type := mkRandom { draws : nat -> num; calls : nat }.

Definition Math_random (g : Random) : num * Random :=
  (draws g (calls g), mkRandom (draws g) (S (calls g))).

Definition skip (n : nat) (g : Random) : Random :=
  mkRandom (draws g) (calls g + n).

(** ** class Particle *)

Record Particle : Type := mkParticle {
  mesh : Object3D;
  type : string;
  targetPos : Vector3;
  targetRot : Euler;
  velocity : Vector3;
  originIndex : nat
}.

Definition new_Particle (m : Object3D) (ty : string) (index : nat) (g : Random)
  : Particle * Random :=
  let (r1, g1) := Math_random g in
  let (r2, g2) := Math_random g1 in
  let (r3, g3) := Math_random g2 in
  (mkParticle m ty zero3 zeroE
              (mkVector3 ((r1 - lit 0.5) * lit 0.15)
                         ((r2 - lit 0.5) * lit 0.15)
                         ((r3 - lit 0.5) * lit 0.15))
              index,
   g3).

Definition set_mesh (m : Object3D) (p : Particle) : Particle :=
  mkParticle m (type p) (targetPos p) (targetRot p) (velocity p) (originIndex p).

Definition set_targetPos (v : Vector3) (p : Particle) : Particle :=
  mkParticle (mesh p) (type p) v (targetRot p) (velocity p) (originIndex p).

Definition set_targetRot (e : Euler) (p : Particle) : Particle :=
  mkParticle (mesh p) (type p) (targetPos p) e (velocity p) (originIndex p).

Definition set_scale (v : Vector3) (p : Particle) : Particle :=
  set_mesh (mkObject3D (position (mesh p)) (rotation (mesh p)) v) p.

Definition update (p : Particle) (mode : SceneMode) (focusTarget : option nat)
  : Particle :=
  let lerpSpeed := if SceneMode_eqb mode FOCUS then lit 0.04 else lit 0.08 in
  let pos := Vector3_lerp (position (mesh p)) (targetPos p) lerpSpeed in
  let rot := rotation (mesh p) in
  let v := velocity p in
  if SceneMode_eqb mode SCATTER then
    set_mesh (mkObject3D pos
                (mkEuler (ex rot + vx v * lit 2.5)
                         (ey rot + vy v * lit 2.5)
                         (ez rot + vz v * lit 2.5))
                (scale (mesh p))) p
  else if SceneMode_eqb mode FOCUS
          && negb (focus_is focusTarget (originIndex p)) then
    set_mesh (mkObject3D (Vector3_addScaledVector pos v (lit 0.05))
                (mkEuler (ex rot + vx v * lit 0.2)
                         (ey rot + vy v * lit 0.2)
                         (ez rot))
                (scale (mesh p))) p
  else
    set_mesh (mkObject3D pos
                (mkEuler (MathUtils_lerp (ex rot) (ex (targetRot p)) (lit 0.06))
                         (MathUtils_lerp (ey rot) (ey (targetRot p)) (lit 0.06))
                         (MathUtils_lerp (ez rot) (ez (targetRot p)) (lit 0.06)))
                (scale (mesh p))) p.

(** ** class ChristmasScene

    [entropy] is the state of [Math.random]; renderer, camera, lights
    and the dust cloud are left out. *)
Record ChristmasScene : Type := mkScene {
  particles : list Particle;
  mainGroup : Object3D;
  mode : SceneMode;
  focusTargetIdx : option nat;
  entropy : Random
}.

Definition set_particles (ps : list Particle) (s : ChristmasScene) :=
  mkScene ps (mainGroup s) (mode s) (focusTargetIdx s) (entropy s).
Definition set_mainGroup (o : Object3D) (s : ChristmasScene) :=
  mkScene (particles s) o (mode s) (focusTargetIdx s) (entropy s).
Definition set_mode (m : SceneMode) (s : ChristmasScene) :=
  mkScene (particles s) (mainGroup s) m (focusTargetIdx s) (entropy s).
Definition set_focusTargetIdx (f : option nat) (s : ChristmasScene) :=
  mkScene (particles s) (mainGroup s) (mode s) f (entropy s).
Definition set_entropy (g : Random) (s : ChristmasScene) :=
  mkScene (particles s) (mainGroup s) (mode s) (focusTargetIdx s) g.

Definition is_photo (p : Particle) : bool := String.eqb (type p) "PHOTO".

(** The three layouts: the body of the [forEach] callback of [setMode]
    for the particle at array index [i] of [N]. *)
Definition tree_layout (N : nat) (p : Particle) (i : nat) : Particle :=
  let t := of_nat i / of_nat N in
  let maxRadius := lit 14 in
  let radius := maxRadius * (lit 1 - t) in
  let angle := t * lit 45 * Math_PI in
  set_scale (mkVector3 (lit 1) (lit 1) (lit 1))
    (set_targetRot (mkEuler (lit 0) angle (lit 0))
       (set_targetPos (mkVector3 (Math_cos angle * radius)
                                 (t * lit 26 - lit 12)
                                 (Math_sin angle * radius)) p)).

Definition scatter_layout (N : nat) (p : Particle) (i : nat) (g : Random)
  : Particle * Random :=
  let (r, g1) := Math_random g in
  let radius := lit 8 + r * lit 14 in
  let phi := Math_acos (lit (-1) + (lit 2 * of_nat i) / of_nat N) in
  let theta := Math_sqrt (of_nat N * Math_PI) * phi in
  (set_scale (mkVector3 (lit 1) (lit 1) (lit 1))
     (set_targetPos (mkVector3 (radius * Math_cos theta * Math_sin phi)
                               (radius * Math_sin theta * Math_sin phi)
                               (radius * Math_cos phi)) p),
   g1).

Definition focus_layout (focus : option nat) (p : Particle) (i : nat) (g : Random)
  : Particle * Random :=
  if focus_is focus i then
    (set_scale (mkVector3 (lit 4.5) (lit 4.5) (lit 4.5))
       (set_targetRot (mkEuler (lit 0) (lit 0) (lit 0))
          (set_targetPos (mkVector3 (lit 0) (lit 2) (lit 35)) p)),
     g)
  else
    let (r1, g1) := Math_random g in
    let angle := r1 * Math_PI * lit 2 in
    let (r2, g2) := Math_random g1 in
    let dist := lit 30 + r2 * lit 15 in
    (set_scale (mkVector3 (lit 0.4) (lit 0.4) (lit 0.4))
       (set_targetPos (mkVector3 (Math_cos angle * dist)
                                 (Math_sin angle * dist)
                                 (lit (-15))) p),
     g2).

Definition layout (m : SceneMode) (N : nat) (focus : option nat)
           (p : Particle) (i : nat) (g : Random) : Particle * Random :=
  match m with
  | TREE => (tree_layout N p i, g)
  | SCATTER => scatter_layout N p i g
  | FOCUS => focus_layout focus p i g
  end.

(** The first half of [setMode]: store the mode, then choose or clear
    the focus target.  [photos[k]] is [undefined] when [k] is not an
    index of [photos], and [target.originIndex] then raises. *)
Definition choose_focus (m : SceneMode) (s : ChristmasScene)
  : Completion ChristmasScene :=
  let s := set_mode m s in
  if SceneMode_eqb m FOCUS then
    let photos := filter is_photo (particles s) in
    if Nat.ltb 0 (length photos) then
      let (r, g) := Math_random (entropy s) in
      let s := set_entropy g s in
      match Math_floor_index (r * of_nat (length photos)) with
      | Some k =>
          match nth_error photos k with
          | Some target => Normal (set_focusTargetIdx (Some (originIndex target)) s)
          | None => Throw s
          end
      | None => Throw s
      end
    else Normal s
  else Normal (set_focusTargetIdx None s).

Definition setMode (m : SceneMode) (s : ChristmasScene)
  : Completion ChristmasScene :=
  and_then (choose_focus m s) (fun s =>
    let (ps, g) := forEach (layout m (length (particles s)) (focusTargetIdx s))
                           (particles s) 0 (entropy s) in
    Normal (set_entropy g (set_particles ps s))).

Definition addPhotoToScene (s : ChristmasScene) : Completion ChristmasScene :=
  let group := new_Object3D in
  let (p, g) := new_Particle group "PHOTO" (length (particles s)) (entropy s) in
  let s := set_entropy g (set_particles (particles s ++ [p]) s) in
  setMode (mode s) s.

Definition updateInteraction (palmCenter : option (@Point2 J)) (s : ChristmasScene)
  : ChristmasScene :=
  match palmCenter with
  | Some c =>
      let targetRX := (py c - lit 0.5) * lit (-0.6) in
      let targetRY := (px c - lit 0.5) * lit 0.9 in
      let r := rotation (mainGroup s) in
      let rx := MathUtils_lerp (ex r) targetRX (lit 0.08) in
      let ry := MathUtils_lerp (ey r) targetRY (lit 0.08) in
      set_mainGroup (mkObject3D (position (mainGroup s))
                                (mkEuler rx ry (ez r))
                                (scale (mainGroup s))) s
  | None => s
  end.

(** One frame: every particle is advanced with the current mode and
    focus target. *)
Definition animate (s : ChristmasScene) : ChristmasScene :=
  set_particles
    (map (fun p => update p (mode s) (focusTargetIdx s)) (particles s)) s.

(** ** Construction *)

(** The loop of [initParticles]; [remaining] iterations are left and
    the loop variable is [i].  The material draw is consumed for boxes
    and spheres only. *)
Fixpoint initParticles_loop (remaining i : nat) (s : ChristmasScene)
  : ChristmasScene :=
  match remaining with
  | O => s
  | S remaining' =>
      let (rnd, g1) := Math_random (entropy s) in
      let (ty, g2) :=
        if rnd <? lit 0.45 then ("BOX"%string, snd (Math_random g1))
        else if rnd <? lit 0.85 then ("SPHERE"%string, snd (Math_random g1))
        else ("CANDY"%string, g1) in
      let (p, g3) := new_Particle new_Object3D ty i g2 in
      initParticles_loop remaining' (S i)
        (set_entropy g3 (set_particles (particles s ++ [p]) s))
  end.

Definition totalCount : nat := 1500.

Definition initParticles (s : ChristmasScene) : Completion ChristmasScene :=
  setMode TREE (initParticles_loop totalCount 0 s).

(** The dust cloud only matters here for the random draws it uses up. *)
Definition initDust (s : ChristmasScene) : ChristmasScene :=
  set_entropy (skip (2500 * 3) (entropy s)) s.

Definition initPhotoWall (s : ChristmasScene) : Completion ChristmasScene :=
  addPhotoToScene s.

Definition new_ChristmasScene (g : Random) : Completion ChristmasScene :=
  let s := mkScene [] new_Object3D TREE None g in
  and_then (initParticles s) (fun s =>
  and_then (initPhotoWall (initDust s)) (fun s =>
  Normal (animate s))).

(** ** The scene as a transition system *)

Inductive Event : Type :=
| EsetMode (m : SceneMode)
| EaddPhoto
| EupdateInteraction (palmCenter : option (@Point2 J))
| Etick.

Definition step (e : Event) (s : ChristmasScene) : ChristmasScene :=
  match e with
  | EsetMode m => state_of (setMode m s)
  | EaddPhoto => state_of (addPhotoToScene s)
  | EupdateInteraction c => updateInteraction c s
  | Etick => animate s
  end.

Inductive reachable : ChristmasScene -> Prop :=
| reach_new (g : Random) : reachable (state_of (new_ChristmasScene g))
| reach_step (e : Event) (s : ChristmasScene) :
    reachable s -> reachable (step e s).

(** The focus target is only set in FOCUS mode, and then names a photo. *)
Definition focus_inv (s : ChristmasScene) : Prop :=
  (mode s <> FOCUS -> focusTargetIdx s = None) /\
  (forall k, focusTargetIdx s = Some k ->
             exists p, In p (particles s) /\ type p = "PHOTO"%string
                       /\ originIndex p = k).

(** What a layout pass leaves alone. *)
Definition identity (p : Particle) : string * nat := (type p, originIndex p).

Definition target (p : Particle) : Vector3 * Euler := (targetPos p, targetRot p).

(** ** Vocabulary of the properties *)

(** The generator after one more call. *)
Definition next_draw (g : Random) : Random := snd (Math_random g).

(** The state a completed layout pass leaves. *)
Definition laid_out (m : SceneMode) (s : ChristmasScene) : ChristmasScene :=
  let pass := forEach (layout m (length (particles s)) (focusTargetIdx s))
                      (particles s) 0 (entropy s) in
  set_entropy (snd pass) (set_particles (fst pass) s).

(** The target transform of TREE for index [i] of [N]. *)
Definition tree_target (N i : nat) : Vector3 * Euler :=
  let t := of_nat i / of_nat N in
  let radius := lit 14 * (lit 1 - t) in
  let angle := t * lit 45 * Math_PI in
  (mkVector3 (Math_cos angle * radius) (t * lit 26 - lit 12)
             (Math_sin angle * radius),
   mkEuler (lit 0) angle (lit 0)).

(** The point of the shell that index [i] of [N] is sent to, at radius
    [radius]. *)
Definition shell_point (N i : nat) (radius : num) : Vector3 :=
  let phi := Math_acos (lit (-1) + (lit 2 * of_nat i) / of_nat N) in
  let theta := Math_sqrt (of_nat N * Math_PI) * phi in
  mkVector3 (radius * Math_cos theta * Math_sin phi)
            (radius * Math_sin theta * Math_sin phi)
            (radius * Math_cos phi).

(** The radius drawn for index [i] by a pass that starts with the
    generator in state [g]. *)
Definition shell_radius (g : Random) (i : nat) : num :=
  lit 8 + draws g (calls g + i) * lit 14.

(** Every particle's originIndex is its place in the particle list. *)
Definition indexed (s : ChristmasScene) : Prop :=
  map originIndex (particles s) = seq 0 (length (particles s)).

(** [k] is the originIndex of some photo particle of [ps]. *)
Definition names_photo (k : nat) (ps : list Particle) : Prop :=
  exists p, In p ps /\ type p = "PHOTO"%string /\ originIndex p = k.

End ThreeScene.

(* ================================================================== *)
(** * Sample inputs *)

(** A 21-point hand from the landmarks the classifier looks at; every
    other joint sits at the palm centre. *)
Definition hand_of {J : JSNumber}
           (wrist thumb index palm f12 f16 f20 : Landmark) : list Landmark :=
  [wrist; palm; palm; palm; thumb; palm; palm; palm; index; palm; palm;
   palm; f12; palm; palm; palm; f16; palm; palm; palm; f20].

Module Hands.

Definition pt (x y z : Q) : @Landmark F64.number :=
  @mkLandmark F64.number
              (F64.of_decimal x) (F64.of_decimal y) (F64.of_decimal z).

(** Thumb and index tips about 0.022 apart. *)
Definition pinching : list (@Landmark F64.number) :=
  hand_of (pt 0.5 0.5 0) (pt 0.5 0.5 0) (pt 0.52 0.51 0) (pt 0.5 0.6 0)
          (pt 0.5 0.7 0) (pt 0.5 0.7 0) (pt 0.5 0.7 0).

(** Wrist at the centre, the four fingertips 0.5 away from it. *)
Definition open : list (@Landmark F64.number) :=
  hand_of (pt 0.5 0.5 0) (pt 0.7 0.5 0) (pt 0.5 1 0) (pt 0.5 0.6 0)
          (pt 0.5 1 0) (pt 0.5 1 0) (pt 0.5 1 0).

(** Three hands whose fingertips are all different and leave the plane
    z = 0; the thumb is straight above the index tip.  Fingertip
    distances to the wrist: 0.3, 0.7, 0.9, 0.5 for [spread]; 0.7 and
    three times 0.05 for [curled]; 0.5 and three times 0.3 for [loose]. *)
Definition spread : list (@Landmark F64.number) :=
  hand_of (pt 0.1 0.1 0.1) (pt 0.2 0.3 0.6) (pt 0.2 0.3 0.3) (pt 0.2 0.2 0.2)
          (pt 0.3 0.4 0.7) (pt 0.5 0.5 0.8) (pt 0.1 0.1 0.6).

Definition curled : list (@Landmark F64.number) :=
  hand_of (pt 0.1 0.1 0.1) (pt 0.3 0.4 0.9) (pt 0.3 0.4 0.7) (pt 0.2 0.2 0.2)
          (pt 0.1 0.1 0.15) (pt 0.13 0.14 0.1) (pt 0.14 0.1 0.13).

Definition loose : list (@Landmark F64.number) :=
  hand_of (pt 0.1 0.1 0.1) (pt 0.4 0.5 0.4) (pt 0.4 0.5 0.1) (pt 0.2 0.2 0.2)
          (pt 0.2 0.3 0.3) (pt 0.3 0.2 0.3) (pt 0.3 0.3 0.2).

(** The first nine points of the spread hand: both tips of the pinch
    test are there and they do not pinch. *)
Definition short_spread : list (@Landmark F64.number) := firstn 9 spread.

(** The first nine points of the pinching hand. *)
Definition short_pinch : list (@Landmark F64.number) := firstn 9 pinching.

(** The open hand with its inner joints somewhere else. *)
Definition open_loose : list (@Landmark F64.number) :=
  hand_of (pt 0.5 0.5 0) (pt 0.7 0.5 0) (pt 0.5 1 0) (pt 0.1 0.2 0.3)
          (pt 0.5 1 0) (pt 0.5 1 0) (pt 0.5 1 0).

End Hands.

Module Scenes.

Definition ornament (i : nat) : @Particle Real.number :=
  @mkParticle Real.number new_Object3D "BOX" zero3 zeroE zero3 i.

(** A generator that only ever returns 0. *)
Definition still : @Random Real.number :=
  @mkRandom Real.number (fun _ => 0%R) 0.

(** A generator that returns 0 first and 1/2 from then on. *)
Definition uneven : @Random Real.number :=
  @mkRandom Real.number (fun n => match n with O => 0%R | S _ => (1 / 2)%R end) 0.

Definition pair : @ChristmasScene Real.number :=
  mkScene [ornament 0; ornament 1] new_Object3D TREE None still.

Definition single : @ChristmasScene Real.number :=
  mkScene [ornament 0] new_Object3D TREE None uneven.

Definition photo (i : nat) : @Particle Real.number :=
  @mkParticle Real.number new_Object3D "PHOTO" zero3 zeroE zero3 i.

(** An ornament and a photo. *)
Definition album : @ChristmasScene Real.number :=
  mkScene [ornament 0; photo 1] new_Object3D TREE None still.

(** The album while its photo is being shown, and while scattered. *)
Definition showing : @ChristmasScene Real.number :=
  mkScene [ornament 0; photo 1] new_Object3D FOCUS (Some 1%nat) still.

Definition scattered : @ChristmasScene Real.number :=
  mkScene [ornament 0; photo 1] new_Object3D SCATTER None still.

End Scenes.

(** A pointer inside the normalised camera frame. *)
Definition in_frame (c : @Point2 Real.number) : Prop :=
  (0 <= px c <= 1)%R /\ (0 <= py c <= 1)%R.

Definition pointer_in_frame (e : @Event Real.number) : Prop :=
  match e with
  | EupdateInteraction (Some c) => in_frame c
  | _ => True
  end.

(** [x] has closed the gap between [x0] and [goal] down to [c ^ n] of
    what it was. *)
Definition eased (c : R) (n : nat) (x0 goal x : R) : Prop :=
  (x - goal = c ^ n * (x0 - goal))%R.

Definition eased3 (c : R) (n : nat) (v0 goal v : @Vector3 Real.number) : Prop :=
  eased c n (vx v0) (vx goal) (vx v) /\
  eased c n (vy v0) (vy goal) (vy v) /\
  eased c n (vz v0) (vz goal) (vz v).

Definition easedE (c : R) (n : nat) (e0 goal e : @Euler Real.number) : Prop :=
  eased c n (ex e0) (ex goal) (ex e) /\
  eased c n (ey e0) (ey goal) (ey e) /\
  eased c n (ez e0) (ez goal) (ez e).

(** The point [k] velocities away from [t]. *)
Definition offset (t v : @Vector3 Real.number) (k : R) : @Vector3 Real.number :=
  @mkVector3 Real.number (vx t + k * vx v)%R (vy t + k * vy v)%R
             (vz t + k * vz v)%R.

(** The tilt of the scene group stays within 0.31 rad of pitch and
    0.46 rad of yaw, and there is no roll.  The targets of the
    smoothing lie within 0.3 and 0.45; the hundredth on top makes each
    update map the band strictly into itself (0.92·0.31 + 0.08·0.3 =
    0.3092), so that the bound does not hinge on exact arithmetic. *)
Definition tilt_ok (s : @ChristmasScene Real.number) : Prop :=
  (-0.31 <= ex (rotation (mainGroup s)) <= 0.31)%R /\
  (-0.46 <= ey (rotation (mainGroup s)) <= 0.46)%R /\
  ez (rotation (mainGroup s)) = 0%R.

(** A drift vector whose components lie in [−0.075, 0.075). *)
Definition small_drift (v : @Vector3 Real.number) : Prop :=
  (-0.075 <= vx v < 0.075)%R /\ (-0.075 <= vy v < 0.075)%R /\
  (-0.075 <= vz v < 0.075)%R.

(** Every value [Math.random] is going to return lies in [0, 1). *)
Definition unit_draws (g : @Random Real.number) : Prop :=
  forall k, (0 <= draws g k < 1)%R.

(* ================================================================== *)
(** * App.tsx *)

Section App.

Context {J : JSNumber} {M : GestureMath J} {SM : SceneMath J}.

(** The callback the effect installs as [gesture.onUpdate].
    [gestureMode] is the value of the React state the callback's closure
    captured; the [setGestureMode] call only concerns the page. *)
Definition onUpdate (gestureMode : SceneMode) (data : GestureData)
           (s : ChristmasScene) : Completion ChristmasScene :=
  and_then
    (if negb (SceneMode_eqb (gmode data) gestureMode)
     then setMode (gmode data) s
     else Normal s)
    (fun s => Normal (updateInteraction (palmCenter data) s)).

(** One detection result taken through [predict] and the callback; a
    TypeError inside [predict] leaves the scene as it was. *)
Definition frame (gestureMode : SceneMode)
           (results : option (list (list Landmark)))
           (s : ChristmasScene) : Completion ChristmasScene :=
  match predict results with
  | Some data => onUpdate gestureMode data s
  | None => Throw s
  end.

End App.

(* ================================================================== *)
(** * Further vocabulary *)

Section MoreVocabulary.

Context {J : JSNumber} {SM : SceneMath J}.

(** [n] frames in a row. *)
Definition ticks (n : nat) (s : ChristmasScene) : ChristmasScene :=
  Nat.iter n animate s.

(** A sequence of events, oldest first. *)
Definition run (es : list Event) (s : ChristmasScene) : ChristmasScene :=
  fold_left (fun s e => step e s) es s.

(** What a particle is given when it is created. *)
Definition birth (p : Particle) : string * nat * Vector3 :=
  (type p, originIndex p, velocity p).

(** Where a particle currently is. *)
Definition pose (p : Particle) : Vector3 * Euler :=
  (position (mesh p), rotation (mesh p)).

Definition is_ornament (ty : string) : Prop :=
  ty = "BOX"%string \/ ty = "SPHERE"%string \/ ty = "CANDY"%string.

End MoreVocabulary.

(* ================================================================== *)
(** * Order facts of the two number systems *)

Lemma Real_ltb_true (a b : R) : Real.ltb a b = true <-> (a < b)%R.
Proof. unfold Real.ltb. destruct (Rlt_dec a b); split; intros; try easy. Qed.

Lemma Real_ltb_false (a b : R) : Real.ltb a b = false <-> (b <= a)%R.
Proof.
  unfold Real.ltb. destruct (Rlt_dec a b); split; intros; try easy; lra.
Qed.

Lemma Real_leb_true (a b : R) : Real.leb a b = true <-> (a <= b)%R.
Proof. unfold Real.leb. destruct (Rle_dec a b); split; intros; try easy. Qed.

#[export] Instance Real_laws : JSNumberLaws Real.number.
Proof.
  constructor; simpl.
  - intros a b H. apply Real_leb_true in H. apply Real_ltb_false. exact H.
  - intros a b c Hab Hbc.
    apply Real_ltb_true in Hab. apply Real_ltb_true in Hbc.
    apply Real_ltb_false. lra.
  - apply Real_ltb_true. unfold Q2R. simpl. lra.
Qed.

(** Comparison of IEEE values, through its specification on [spec_float]. *)
Lemma SFcompare_swap (x y : spec_float) :
  SFcompare y x = option_map CompOpp (SFcompare x y).
Proof.
  destruct x as [sx|sx| |sx mx ex], y as [sy|sy| |sy my ey]; simpl;
    try reflexivity;
    try (destruct sx; reflexivity);
    try (destruct sy; reflexivity);
    try (destruct sx, sy; reflexivity).
  change (PosDef.Pos.compare_cont Eq my mx) with (Pos.compare my mx).
  change (PosDef.Pos.compare_cont Eq mx my) with (Pos.compare mx my).
  rewrite (Z.compare_antisym ex ey), (Pos.compare_antisym mx my).
  destruct sx, sy; simpl; try reflexivity;
    destruct (ex ?= ey)%Z; simpl; try reflexivity;
    destruct (mx ?= my)%positive; reflexivity.
Qed.

Lemma SFcompare_Lt_trans (x y z : spec_float) :
  SFcompare x y = Some Lt -> SFcompare y z = Some Lt -> SFcompare x z = Some Lt.
Proof.
  destruct x as [sx|sx| |sx mx ex], y as [sy|sy| |sy my ey],
           z as [sz|sz| |sz mz ez]; simpl; intros Hxy Hyz;
    repeat match goal with s : bool |- _ => destruct s end;
    try discriminate; try reflexivity;
    repeat match goal with
           | H : context [PosDef.Pos.compare_cont Eq ?a ?b] |- _ =>
               change (PosDef.Pos.compare_cont Eq a b) with (Pos.compare a b) in H
           | |- context [PosDef.Pos.compare_cont Eq ?a ?b] =>
               change (PosDef.Pos.compare_cont Eq a b) with (Pos.compare a b)
           end;
    destruct (Z.compare_spec ex ey), (Z.compare_spec ey ez),
             (Z.compare_spec ex ez);
    try discriminate; try reflexivity; try lia;
    destruct (Pos.compare_spec mx my), (Pos.compare_spec my mz),
             (Pos.compare_spec mx mz);
    simpl in *; try discriminate; try reflexivity; lia.
Qed.

Lemma F64_leb_not_ltb (a b : float) :
  PrimFloat.leb a b = true -> PrimFloat.ltb b a = false.
Proof.
  rewrite FloatAxioms.leb_spec, FloatAxioms.ltb_spec.
  unfold SFleb, SFltb. rewrite (SFcompare_swap (Prim2SF a) (Prim2SF b)).
  destruct (SFcompare (Prim2SF a) (Prim2SF b)) as [[]|]; simpl; congruence.
Qed.

Lemma F64_ltb_chain (a b c : float) :
  PrimFloat.ltb a b = true -> PrimFloat.ltb b c = true ->
  PrimFloat.ltb c a = false.
Proof.
  rewrite !FloatAxioms.ltb_spec. unfold SFltb. intros Hab Hbc.
  assert (Hac : SFcompare (Prim2SF a) (Prim2SF c) = Some Lt).
  { apply SFcompare_Lt_trans with (y := Prim2SF b).
    - destruct (SFcompare (Prim2SF a) (Prim2SF b)) as [[]|]; congruence.
    - destruct (SFcompare (Prim2SF b) (Prim2SF c)) as [[]|]; congruence. }
  rewrite (SFcompare_swap (Prim2SF a) (Prim2SF c)), Hac. reflexivity.
Qed.

#[export] Instance F64_laws : JSNumberLaws F64.number.
Proof.
  constructor.
  - exact F64_leb_not_ltb.
  - exact F64_ltb_chain.
  - vm_compute. reflexivity.
Qed.

(* ================================================================== *)
(** * The gesture classifier *)

Section GestureFacts.

Context {J : JSNumber} {M : GestureMath J}.
Local Open Scope js_scope.

Lemma at_index_21 (landmarks : list Landmark) (i : nat) :
  length landmarks = 21 -> i < 21 -> exists l, at_index landmarks i = Some l.
Proof.
  intros Hlen Hi. unfold at_index.
  destruct (nth_error landmarks i) as [l|] eqn:E.
  - now exists l.
  - apply nth_error_None in E. lia.
Qed.

(** On a 21-point set the classifier always answers. *)
Lemma processGestures_total (landmarks : list Landmark) :
  length landmarks = 21 -> exists m, processGestures landmarks = Some m.
Proof.
  intros Hlen. unfold processGestures.
  destruct (at_index_21 landmarks (i := 4) Hlen) as [thumb ->]; [lia|].
  destruct (at_index_21 landmarks (i := 8) Hlen) as [index ->]; [lia|].
  destruct (at_index_21 landmarks (i := 0) Hlen) as [wrist ->]; [lia|].
  destruct (at_index_21 landmarks (i := 12) Hlen) as [f12 ->]; [lia|].
  destruct (at_index_21 landmarks (i := 16) Hlen) as [f16 ->]; [lia|].
  destruct (at_index_21 landmarks (i := 20) Hlen) as [f20 ->]; [lia|].
  simpl.
  repeat match goal with |- context [if ?b then _ else _] => destruct b end;
    eauto.
Qed.


(** C2. With thumb and index tips at least 0.05 apart (the hypot of
    their three coordinate differences), let [avg] be the sum of the
    hypots of the coordinate differences between fingertips 8, 12, 16,
    20 and the wrist, divided by 4. Below 0.25 the answer is TREE,
    above 0.40 it is SCATTER, and in between (both bounds included) it
    is TREE again. *)
Theorem fist_or_open {L : JSNumberLaws J}
        (landmarks : list Landmark)
        (wrist thumb index f12 f16 f20 : Landmark) :
  length landmarks = 21 ->
  at_index landmarks 0 = Some wrist ->
  at_index landmarks 4 = Some thumb ->
  at_index landmarks 8 = Some index ->
  at_index landmarks 12 = Some f12 ->
  at_index landmarks 16 = Some f16 ->
  at_index landmarks 20 = Some f20 ->
  let dist (a b : Landmark) :=
    Math_hypot (lx a - lx b) (ly a - ly b) (lz a - lz b) in
  (lit 0.05 <=? dist thumb index) = true ->
  let avg := ((((lit 0 + dist index wrist) + dist f12 wrist)
               + dist f16 wrist) + dist f20 wrist) / of_nat 4 in
  ((avg <? lit 0.25) = true -> processGestures landmarks = Some TREE) /\
  ((avg >? lit 0.4) = true -> processGestures landmarks = Some SCATTER) /\
  ((lit 0.25 <=? avg) = true -> (avg <=? lit 0.4) = true ->
   processGestures landmarks = Some TREE).
Proof.
  intros _ Hw Ht Hi H12 H16 H20 dist Hpinch avg.
  apply nle_not_nlt in Hpinch.
  assert (Hrun : processGestures landmarks =
                 if avg <? lit 0.25 then Some TREE
                 else if avg >? lit 0.4 then Some SCATTER else Some TREE).
  { unfold processGestures. rewrite Ht, Hi. cbn [bind].
    unfold pinch_dist. fold (dist thumb index). rewrite Hpinch.
    rewrite Hw, H12, H16, H20. reflexivity. }
  rewrite Hrun. repeat split.
  - intros ->. reflexivity.
  - intros Hopen.
    rewrite (nlt_chain _ _ _ fist_below_open Hopen), Hopen. reflexivity.
  - intros Hlo Hhi.
    rewrite (nle_not_nlt _ _ Hlo), (nle_not_nlt _ _ Hhi). reflexivity.
Qed.

(** C7. Without a landmark set the emitted result is mode TREE with no
    pointer; with a 21-point set it carries the classifier's mode and
    the (x, y) of landmark 9. *)
Theorem predict_emits :
  predict None = Some (mkGestureData TREE None) /\
  predict (Some []) = Some (mkGestureData TREE None) /\
  (forall (landmarks : list Landmark) (others : list (list Landmark))
          (l9 : Landmark),
      length landmarks = 21 ->
      at_index landmarks 9 = Some l9 ->
      exists m, processGestures landmarks = Some m /\
                predict (Some (landmarks :: others)) =
                Some (mkGestureData m (Some (mkPoint2 (lx l9) (ly l9))))).
Proof.
  repeat split; try reflexivity.
  intros landmarks others l9 Hlen H9.
  destruct (processGestures_total landmarks Hlen) as [m Hm].
  exists m. split; [exact Hm|].
  unfold predict. rewrite Hm. cbn [bind]. rewrite H9. reflexivity.
Qed.

End GestureFacts.


(** The spread, curled and loose hands are classified SCATTER, TREE,
    TREE: their averages are 0.6, 0.2125 and 0.35, while the index tip
    alone is at 0.3, 0.7 and 0.5 from the wrist. *)
Lemma fist_or_open_witness :
  processGestures Hands.spread = Some SCATTER /\
  processGestures Hands.curled = Some TREE /\
  processGestures Hands.loose = Some TREE.
Proof.
  split; [|split].
  - refine (proj1 (proj2
      (@fist_or_open F64.number F64.gesture_math F64_laws Hands.spread
         (Hands.pt 0.1 0.1 0.1) (Hands.pt 0.2 0.3 0.6) (Hands.pt 0.2 0.3 0.3)
         (Hands.pt 0.3 0.4 0.7) (Hands.pt 0.5 0.5 0.8) (Hands.pt 0.1 0.1 0.6)
         _ _ _ _ _ _ _ _)) _); vm_compute; reflexivity.
  - refine (proj1
      (@fist_or_open F64.number F64.gesture_math F64_laws Hands.curled
         (Hands.pt 0.1 0.1 0.1) (Hands.pt 0.3 0.4 0.9) (Hands.pt 0.3 0.4 0.7)
         (Hands.pt 0.1 0.1 0.15) (Hands.pt 0.13 0.14 0.1)
         (Hands.pt 0.14 0.1 0.13)
         _ _ _ _ _ _ _ _) _); vm_compute; reflexivity.
  - refine (proj2 (proj2
      (@fist_or_open F64.number F64.gesture_math F64_laws Hands.loose
         (Hands.pt 0.1 0.1 0.1) (Hands.pt 0.4 0.5 0.4) (Hands.pt 0.4 0.5 0.1)
         (Hands.pt 0.2 0.3 0.3) (Hands.pt 0.3 0.2 0.3) (Hands.pt 0.3 0.3 0.2)
         _ _ _ _ _ _ _ _)) _ _); vm_compute; reflexivity.
Defined.

(** The pointer emitted for the open sample is its landmark 9. *)
Lemma predict_emits_witness :
  exists m, processGestures Hands.open = Some m /\
            predict (Some [Hands.open]) =
            Some (mkGestureData m
                    (Some (@mkPoint2 F64.number (F64.of_decimal 0.5)
                                                (F64.of_decimal 0.6)))).
Proof.
  apply (proj2 (proj2 (@predict_emits F64.number F64.gesture_math))
           Hands.open [] (Hands.pt 0.5 0.6 0)); reflexivity.
Defined.

(* ================================================================== *)
(** * forEach *)

Section ForEachFacts.

Context {A G : Type}.
Variable f : A -> nat -> G -> A * G.

Lemma forEach_length (l : list A) (i : nat) (st : G) :
  length (fst (forEach f l i st)) = length l.
Proof.
  revert i st. induction l as [|a l IH]; intros i st; simpl.
  - reflexivity.
  - destruct (f a i st) as [a' st1].
    specialize (IH (S i) st1). destruct (forEach f l (S i) st1) as [rest st2].
    simpl in *. now rewrite IH.
Qed.

(** A property the callback keeps for each element is kept by the pass. *)
Lemma forEach_map_keeps {B : Type} (h : A -> B) :
  (forall a i st, h (fst (f a i st)) = h a) ->
  forall l i st, map h (fst (forEach f l i st)) = map h l.
Proof.
  intros Hkeep l. induction l as [|a l IH]; intros i st; simpl.
  - reflexivity.
  - specialize (Hkeep a i st). destruct (f a i st) as [a' st1].
    specialize (IH (S i) st1). destruct (forEach f l (S i) st1) as [rest st2].
    simpl in *. now rewrite Hkeep, IH.
Qed.

(** When every call advances the threaded state by the same [next], the
    element at offset [j] is rewritten in the state reached after [j]
    advances. *)
Lemma forEach_nth_error (next : G -> G) :
  (forall a i st, snd (f a i st) = next st) ->
  forall l i st j a,
    nth_error l j = Some a ->
    nth_error (fst (forEach f l i st)) j
    = Some (fst (f a (i + j) (Nat.iter j next st))).
Proof.
  intros Hnext l. induction l as [|b l IH]; intros i st j a Hj.
  - destruct j; discriminate.
  - simpl. pose proof (Hnext b i st) as Hb.
    destruct (f b i st) as [b' st1] eqn:Eb. simpl in Hb. subst st1.
    specialize (IH (S i) (next st)).
    destruct (forEach f l (S i) (next st)) as [rest st2]. simpl in IH |- *.
    destruct j as [|j]; simpl in Hj |- *.
    + inversion Hj; subst. rewrite Nat.add_0_r, Eb. reflexivity.
    + rewrite (IH j a Hj). rewrite Nat.add_succ_r. simpl.
      now rewrite <- Nat.iter_succ_r.
Qed.

(** When the callback's result depends on the index alone, so does the
    pass. *)
Lemma forEach_map_index {B : Type} (h : A -> B) (c : nat -> B) :
  (forall a i st, h (fst (f a i st)) = c i) ->
  forall l i st, map h (fst (forEach f l i st)) = map c (seq i (length l)).
Proof.
  intros Hc l. induction l as [|a l IH]; intros i st; simpl.
  - reflexivity.
  - specialize (Hc a i st). destruct (f a i st) as [a' st1].
    specialize (IH (S i) st1). destruct (forEach f l (S i) st1) as [rest st2].
    simpl in *. now rewrite Hc, IH.
Qed.

Lemma forEach_final_state (next : G -> G) :
  (forall a i st, snd (f a i st) = next st) ->
  forall l i st, snd (forEach f l i st) = Nat.iter (length l) next st.
Proof.
  intros Hnext l. induction l as [|a l IH]; intros i st; simpl.
  - reflexivity.
  - pose proof (Hnext a i st) as Ha. destruct (f a i st) as [a' st1].
    simpl in Ha. subst st1. specialize (IH (S i) (next st)).
    destruct (forEach f l (S i) (next st)) as [rest st2]. simpl in *.
    now rewrite IH, <- Nat.iter_succ_r.
Qed.

End ForEachFacts.

(* ================================================================== *)
(** * The scene choreographer *)

Section SceneFacts.

Context {J : JSNumber} {SM : SceneMath J}.
Local Open Scope js_scope.

(** ** Math.random *)

Lemma skip_0 (g : Random) : skip 0 g = g.
Proof. destruct g as [d c]. unfold skip. simpl. now rewrite Nat.add_0_r. Qed.

Lemma iter_next_draw (j : nat) (g : Random) :
  Nat.iter j next_draw g = skip j g.
Proof.
  induction j as [|j IH]; simpl.
  - now rewrite skip_0.
  - rewrite IH. unfold next_draw, skip. simpl. f_equal. lia.
Qed.


(** ** A layout pass rewrites targets and scale, nothing else *)

Lemma layout_identity (m : SceneMode) (N : nat) (focus : option nat)
      (p : Particle) (i : nat) (g : Random) :
  identity (fst (layout m N focus p i g)) = identity p.
Proof.
  destruct m; simpl; try reflexivity.
  unfold focus_layout. destruct (focus_is focus i); reflexivity.
Qed.

Lemma layout_TREE_state (N : nat) (focus : option nat)
      (p : Particle) (i : nat) (g : Random) :
  snd (layout TREE N focus p i g) = g.
Proof. reflexivity. Qed.

Lemma layout_SCATTER_state (N : nat) (focus : option nat)
      (p : Particle) (i : nat) (g : Random) :
  snd (layout SCATTER N focus p i g) = next_draw g.
Proof. reflexivity. Qed.


(** ** The two halves of setMode *)

Lemma choose_focus_particles (m : SceneMode) (s : ChristmasScene) :
  particles (state_of (choose_focus m s)) = particles s.
Proof.
  unfold choose_focus. destruct (SceneMode_eqb m FOCUS); [|reflexivity].
  simpl. destruct (Nat.ltb 0 _); [|reflexivity].
  destruct (Math_floor_index _) as [k|]; [|reflexivity].
  destruct (nth_error _ k); reflexivity.
Qed.

Lemma choose_focus_mode (m : SceneMode) (s : ChristmasScene) :
  mode (state_of (choose_focus m s)) = m.
Proof.
  unfold choose_focus. destruct (SceneMode_eqb m FOCUS); [|reflexivity].
  simpl. destruct (Nat.ltb 0 _); [|reflexivity].
  destruct (Math_floor_index _) as [k|]; [|reflexivity].
  destruct (nth_error _ k); reflexivity.
Qed.

Lemma choose_focus_mainGroup (m : SceneMode) (s : ChristmasScene) :
  mainGroup (state_of (choose_focus m s)) = mainGroup s.
Proof.
  unfold choose_focus. destruct (SceneMode_eqb m FOCUS); [|reflexivity].
  simpl. destruct (Nat.ltb 0 _); [|reflexivity].
  destruct (Math_floor_index _) as [k|]; [|reflexivity].
  destruct (nth_error _ k); reflexivity.
Qed.

Lemma choose_focus_leaving (m : SceneMode) (s : ChristmasScene) :
  m <> FOCUS ->
  choose_focus m s = Normal (set_focusTargetIdx None (set_mode m s)).
Proof. intros Hm. destruct m; try reflexivity. now elim Hm. Qed.

Lemma choose_focus_no_photo (s : ChristmasScene) :
  filter is_photo (particles s) = [] ->
  choose_focus FOCUS s = Normal (set_mode FOCUS s).
Proof. intros Hnone. unfold choose_focus. simpl. now rewrite Hnone. Qed.

Lemma setMode_unfold (m : SceneMode) (s : ChristmasScene) :
  setMode m s = and_then (choose_focus m s) (fun s1 => Normal (laid_out m s1)).
Proof.
  unfold setMode, laid_out. destruct (choose_focus m s) as [s1|s1]; simpl.
  - now destruct (forEach _ _ _ _).
  - reflexivity.
Qed.

Lemma laid_out_identity (m : SceneMode) (s : ChristmasScene) :
  map identity (particles (laid_out m s)) = map identity (particles s).
Proof.
  unfold laid_out. simpl. apply forEach_map_keeps.
  intros a i st. apply layout_identity.
Qed.

Lemma laid_out_length (m : SceneMode) (s : ChristmasScene) :
  length (particles (laid_out m s)) = length (particles s).
Proof. unfold laid_out. simpl. apply forEach_length. Qed.

Lemma setMode_identity (m : SceneMode) (s : ChristmasScene) :
  map identity (particles (state_of (setMode m s))) = map identity (particles s).
Proof.
  rewrite setMode_unfold. rewrite <- (choose_focus_particles m s).
  destruct (choose_focus m s) as [s1|s1]; simpl.
  - apply laid_out_identity.
  - reflexivity.
Qed.

Lemma setMode_leaving (m : SceneMode) (s : ChristmasScene) :
  m <> FOCUS ->
  setMode m s = Normal (laid_out m (set_focusTargetIdx None (set_mode m s))).
Proof.
  intros Hm. rewrite setMode_unfold, (choose_focus_leaving s Hm). reflexivity.
Qed.

(** ** The targets each layout assigns *)

Lemma TREE_nth (s : ChristmasScene) (i : nat) (p : Particle) :
  nth_error (particles s) i = Some p ->
  nth_error (particles (laid_out TREE s)) i
  = Some (tree_layout (length (particles s)) p i).
Proof.
  intros Hp. unfold laid_out. simpl.
  rewrite (forEach_nth_error _ (fun g => g)
             (layout_TREE_state (length (particles s)) (focusTargetIdx s))
             _ 0 (entropy s) _ Hp).
  reflexivity.
Qed.

Lemma SCATTER_nth (s : ChristmasScene) (i : nat) (p : Particle) :
  nth_error (particles s) i = Some p ->
  nth_error (particles (laid_out SCATTER s)) i
  = Some (fst (scatter_layout (length (particles s)) p i (skip i (entropy s)))).
Proof.
  intros Hp. unfold laid_out. simpl.
  rewrite (forEach_nth_error _ next_draw
             (layout_SCATTER_state (length (particles s)) (focusTargetIdx s))
             _ 0 (entropy s) _ Hp).
  rewrite iter_next_draw. reflexivity.
Qed.


(** ** TREE *)

Lemma tree_layout_target (N : nat) (p : Particle) (i : nat) :
  target (tree_layout N p i) = tree_target N i.
Proof. reflexivity. Qed.

Lemma laid_out_TREE_targets (s : ChristmasScene) :
  map target (particles (laid_out TREE s))
  = map (tree_target (length (particles s))) (seq 0 (length (particles s))).
Proof.
  unfold laid_out. simpl. apply forEach_map_index.
  intros a i st. reflexivity.
Qed.

(** C3, as the code has it. For the particle at index [i] of [N],
    setMode(TREE) sets the target position to
    (cos(angle)·radius, t·26 − 12, sin(angle)·radius) with t = i/N,
    radius = 14·(1−t) and angle = t·45·π, and the target rotation to
    (0, angle, 0): the helix runs from y = −12 at its base towards
    y = +14 at its apex. *)
Theorem tree_targets (s : ChristmasScene) (i : nat) (p : Particle) :
  nth_error (particles s) i = Some p ->
  exists s' p',
    setMode TREE s = Normal s' /\
    nth_error (particles s') i = Some p' /\
    let N := length (particles s) in
    let t := of_nat i / of_nat N in
    let radius := lit 14 * (lit 1 - t) in
    let angle := t * lit 45 * Math_PI in
    targetPos p' = mkVector3 (Math_cos angle * radius)
                             (t * lit 26 - lit 12)
                             (Math_sin angle * radius) /\
    targetRot p' = mkEuler (lit 0) angle (lit 0).
Proof.
  intros Hp. rewrite setMode_leaving by discriminate.
  eexists. eexists. split; [reflexivity|]. split.
  - apply TREE_nth. exact Hp.
  - simpl. split; reflexivity.
Qed.

(** ** SCATTER *)

Lemma scatter_targets (s : ChristmasScene) (i : nat) (p : Particle) :
  nth_error (particles s) i = Some p ->
  exists s' p',
    setMode SCATTER s = Normal s' /\
    nth_error (particles s') i = Some p' /\
    length (particles s') = length (particles s) /\
    entropy s' = skip (length (particles s)) (entropy s) /\
    targetPos p' = shell_point (length (particles s)) i
                               (shell_radius (entropy s) i) /\
    targetRot p' = targetRot p.
Proof.
  intros Hp. rewrite setMode_leaving by discriminate.
  eexists. eexists. split; [reflexivity|]. split; [|split; [|split]].
  - apply SCATTER_nth. exact Hp.
  - rewrite laid_out_length. reflexivity.
  - unfold laid_out. simpl.
    rewrite (forEach_final_state _ next_draw
               (layout_SCATTER_state (length (particles s)) None)).
    apply iter_next_draw.
  - simpl. split; reflexivity.
Qed.

(** C4, as the code has it. Two calls of setMode(TREE) in a row assign
    the same target position and rotation to every particle. Two calls
    of setMode(SCATTER) leave every target rotation as it was and send
    particle [i] to the same direction of the shell both times, but each
    call draws the radius afresh. *)
Theorem setMode_twice (s : ChristmasScene) :
  (exists s1 s2,
      setMode TREE s = Normal s1 /\ setMode TREE s1 = Normal s2 /\
      map target (particles s2) = map target (particles s1)) /\
  (exists s1 s2,
      setMode SCATTER s = Normal s1 /\ setMode SCATTER s1 = Normal s2 /\
      map targetRot (particles s2) = map targetRot (particles s1) /\
      forall i p1 p2,
        nth_error (particles s1) i = Some p1 ->
        nth_error (particles s2) i = Some p2 ->
        let N := length (particles s) in
        targetPos p1 = shell_point N i (shell_radius (entropy s) i) /\
        targetPos p2 = shell_point N i (shell_radius (entropy s) (N + i))).
Proof.
  split.
  - rewrite setMode_leaving by discriminate.
    eexists. eexists. split; [reflexivity|].
    rewrite setMode_leaving by discriminate. split; [reflexivity|].
    rewrite !laid_out_TREE_targets.
    cbn [particles set_focusTargetIdx set_mode].
    now rewrite !laid_out_length.
  - rewrite setMode_leaving by discriminate.
    eexists. eexists. split; [reflexivity|].
    rewrite setMode_leaving by discriminate. split; [reflexivity|]. split.
    + unfold laid_out at 1. simpl. apply forEach_map_keeps. reflexivity.
    + intros i p1 p2 H1 H2 N.
      assert (Hi : i < length (particles s)).
      { assert (Hsome : nth_error (particles (laid_out SCATTER
                  (set_focusTargetIdx None (set_mode SCATTER s)))) i <> None)
          by (rewrite H1; discriminate).
        apply nth_error_Some in Hsome.
        now rewrite laid_out_length in Hsome. }
      destruct (nth_error (particles s) i) as [p|] eqn:Hp;
        [|apply nth_error_None in Hp; lia].
      destruct (@scatter_targets _ _ _ Hp)
        as (s1 & q1 & Hs1 & Hq1 & Hlen & Hent & Hpos1 & _).
      rewrite setMode_leaving in Hs1 by discriminate.
      inversion Hs1 as [Es1]. rewrite Es1 in H1, H2. rewrite H1 in Hq1.
      inversion Hq1; subst q1. split; [exact Hpos1|].
      destruct (@scatter_targets _ _ _ H1)
        as (s2 & q2 & Hs2 & Hq2 & _ & _ & Hpos2 & _).
      rewrite setMode_leaving in Hs2 by discriminate.
      inversion Hs2 as [Es2]. rewrite Es2 in H2. rewrite H2 in Hq2.
      inversion Hq2; subst q2. rewrite Hpos2, Hlen, Hent.
      unfold shell_radius, skip, N. simpl. now rewrite Nat.add_assoc.
Qed.

End SceneFacts.

Section SceneInvariants.

Context {J : JSNumber} {SM : SceneMath J}.
Local Open Scope js_scope.

(** ** addPhotoToScene *)

Lemma addPhotoToScene_identity (s : ChristmasScene) :
  map identity (particles (state_of (addPhotoToScene s)))
  = map identity (particles s) ++ [("PHOTO"%string, length (particles s))].
Proof.
  unfold addPhotoToScene, new_Particle, Math_random.
  rewrite setMode_identity. cbn [particles set_entropy set_particles].
  rewrite map_app. reflexivity.
Qed.

(** C5. addPhotoToScene leaves the originIndex of each of the [n]
    particles already present unchanged, and the particle it appends is
    a photo with originIndex [n]. *)
Theorem addPhoto_keeps_indices (s : ChristmasScene) :
  let n := length (particles s) in
  let s' := state_of (addPhotoToScene s) in
  length (particles s') = S n /\
  (forall i p, nth_error (particles s) i = Some p ->
     exists p', nth_error (particles s') i = Some p' /\
                originIndex p' = originIndex p) /\
  (exists q, nth_error (particles s') n = Some q /\
             originIndex q = n /\ type q = "PHOTO"%string).
Proof.
  intros n s'. pose proof (addPhotoToScene_identity s) as Hid.
  fold s' in Hid. fold n in Hid.
  assert (Hlen : length (particles s') = S n).
  { rewrite <- (length_map identity), Hid, length_app, length_map.
    simpl. fold n. lia. }
  split; [exact Hlen|]. split.
  - intros i p Hp.
    assert (Hi : i < n) by (apply nth_error_Some; rewrite Hp; discriminate).
    destruct (nth_error (particles s') i) as [p'|] eqn:Hp';
      [|apply nth_error_None in Hp'; lia].
    exists p'. split; [reflexivity|].
    pose proof (map_nth_error identity _ _ Hp') as H'.
    rewrite Hid, nth_error_app1 in H' by (rewrite length_map; exact Hi).
    rewrite (map_nth_error identity _ _ Hp) in H'.
    inversion H'. reflexivity.
  - destruct (nth_error (particles s') n) as [q|] eqn:Hq;
      [|apply nth_error_None in Hq; lia].
    exists q. split; [reflexivity|].
    pose proof (map_nth_error identity _ _ Hq) as H'.
    rewrite Hid, nth_error_app2 in H' by (rewrite length_map; fold n; lia).
    rewrite length_map in H'. fold n in H'. rewrite Nat.sub_diag in H'.
    inversion H'. split; reflexivity.
Qed.

(** ** FOCUS without photos *)



(** ** updateInteraction *)

(** C9. Without a pointer updateInteraction changes nothing. With a
    pointer (x, y) the group's pitch becomes (1 − 0.08)·pitch + 0.08·T
    for the target T = (y − 0.5)·(−0.6), its yaw likewise for the target
    (x − 0.5)·0.9, and nothing else changes. *)
Theorem updateInteraction_smooths (s : ChristmasScene) :
  updateInteraction None s = s /\
  forall c : Point2,
    let targetRX := (py c - lit 0.5) * lit (-0.6) in
    let targetRY := (px c - lit 0.5) * lit 0.9 in
    let r := rotation (mainGroup s) in
    updateInteraction (Some c) s
    = mkScene (particles s)
        (mkObject3D (position (mainGroup s))
           (mkEuler ((lit 1 - lit 0.08) * ex r + lit 0.08 * targetRX)
                    ((lit 1 - lit 0.08) * ey r + lit 0.08 * targetRY)
                    (ez r))
           (scale (mainGroup s)))
        (mode s) (focusTargetIdx s) (entropy s).
Proof. split; [reflexivity|]. intros c. reflexivity. Qed.

(** ** The focus target *)

Lemma names_photo_identity (k : nat) (ps : list Particle) :
  names_photo k ps <-> In ("PHOTO"%string, k) (map identity ps).
Proof.
  unfold names_photo. rewrite in_map_iff. split.
  - intros (p & Hin & Hty & Hk). exists p. split; [|exact Hin].
    unfold identity. now rewrite Hty, Hk.
  - intros (p & Hid & Hin). exists p. inversion Hid. auto.
Qed.

Lemma names_photo_transfer (k : nat) (ps qs : list Particle) :
  map identity qs = map identity ps -> names_photo k ps -> names_photo k qs.
Proof.
  intros Hid H. apply names_photo_identity. rewrite Hid.
  now apply names_photo_identity.
Qed.

Lemma choose_focus_inv (m : SceneMode) (s : ChristmasScene) :
  focus_inv s -> focus_inv (state_of (choose_focus m s)).
Proof.
  intros [Hmode Hphoto]. unfold choose_focus.
  destruct (SceneMode_eqb m FOCUS) eqn:Em.
  - assert (m = FOCUS) by (destruct m; (discriminate || reflexivity)). subst m.
    destruct (Nat.ltb 0 _).
    2: { split; [intros H; now elim H | exact Hphoto]. }
    destruct (Math_random (entropy (set_mode FOCUS s))) as [r g].
    destruct (Math_floor_index _) as [k|].
    2: { split; [intros H; now elim H | exact Hphoto]. }
    destruct (nth_error _ k) as [t|] eqn:Ek.
    2: { split; [intros H; now elim H | exact Hphoto]. }
    split; [intros H; now elim H|].
    intros k' Hk'. inversion Hk'; subst k'.
    apply nth_error_In in Ek. apply filter_In in Ek. destruct Ek as [Hin Hty].
    exists t. split; [exact Hin|]. split; [|reflexivity].
    unfold is_photo in Hty. now apply String.eqb_eq in Hty.
  - simpl. split; [reflexivity|discriminate].
Qed.

Lemma laid_out_focus_inv (m : SceneMode) (s : ChristmasScene) :
  focus_inv s -> focus_inv (laid_out m s).
Proof.
  intros [Hmode Hphoto]. split; [exact Hmode|].
  intros k Hk. apply names_photo_transfer with (ps := particles s).
  - apply laid_out_identity.
  - apply Hphoto. exact Hk.
Qed.

Lemma setMode_focus_inv (m : SceneMode) (s : ChristmasScene) :
  focus_inv s -> focus_inv (state_of (setMode m s)).
Proof.
  intros Hinv. rewrite setMode_unfold.
  pose proof (choose_focus_inv m Hinv) as H1.
  destruct (choose_focus m s) as [s1|s1]; simpl in *.
  - now apply laid_out_focus_inv.
  - exact H1.
Qed.

Lemma addPhotoToScene_focus_inv (s : ChristmasScene) :
  focus_inv s -> focus_inv (state_of (addPhotoToScene s)).
Proof.
  intros [Hmode Hphoto]. unfold addPhotoToScene, new_Particle, Math_random.
  apply setMode_focus_inv. split; [exact Hmode|].
  intros k Hk. destruct (Hphoto k Hk) as (p & Hin & Hp).
  exists p. split; [|exact Hp]. simpl. apply in_or_app. now left.
Qed.

Lemma animate_focus_inv (s : ChristmasScene) :
  focus_inv s -> focus_inv (animate s).
Proof.
  intros [Hmode Hphoto]. split; [exact Hmode|].
  intros k Hk. apply names_photo_transfer with (ps := particles s).
  - unfold animate. simpl. rewrite map_map. apply map_ext.
    intros p. unfold update.
    repeat match goal with |- context [if ?b then _ else _] => destruct b end;
      reflexivity.
  - apply Hphoto. exact Hk.
Qed.

Lemma updateInteraction_focus_inv (c : option Point2) (s : ChristmasScene) :
  focus_inv s -> focus_inv (updateInteraction c s).
Proof. destruct c; intros H; exact H. Qed.

Lemma step_focus_inv (e : Event) (s : ChristmasScene) :
  focus_inv s -> focus_inv (step e s).
Proof.
  destruct e as [m| |c|]; simpl.
  - apply setMode_focus_inv.
  - apply addPhotoToScene_focus_inv.
  - apply updateInteraction_focus_inv.
  - apply animate_focus_inv.
Qed.

(** Construction completes, and the scene it yields has no focus target. *)
Lemma new_ChristmasScene_focus_inv (g : Random) :
  focus_inv (state_of (new_ChristmasScene g)).
Proof.
  unfold new_ChristmasScene, initParticles, initPhotoWall.
  generalize totalCount. intros n.
  rewrite setMode_leaving by discriminate. cbn [and_then].
  match goal with
  | |- context [addPhotoToScene ?s0] =>
      pose proof (@addPhotoToScene_focus_inv s0) as Hadd;
      destruct (addPhotoToScene s0) as [s1|s1]; cbn [and_then state_of] in *
  end.
  - apply animate_focus_inv. apply Hadd. split; [reflexivity|discriminate].
  - apply Hadd. split; [reflexivity|discriminate].
Qed.

(** C10. In every state reachable from construction by setMode,
    addPhotoToScene, updateInteraction and frame ticks, focusTargetIdx
    is null unless the mode is FOCUS, and when it is not null it is the
    originIndex of a particle of type 'PHOTO' in the particle list. *)
Theorem focus_target_invariant (s : ChristmasScene) :
  reachable s ->
  (mode s <> FOCUS -> focusTargetIdx s = None) /\
  (forall k, focusTargetIdx s = Some k ->
             exists p, In p (particles s) /\ type p = "PHOTO"%string
                       /\ originIndex p = k).
Proof.
  intros Hreach. change (focus_inv s).
  induction Hreach as [g|e s _ IH].
  - apply new_ChristmasScene_focus_inv.
  - apply step_focus_inv. exact IH.
Qed.

(** ** Construction and the numbering of particles *)

Lemma originIndex_identity (ps qs : list Particle) :
  map identity qs = map identity ps ->
  map originIndex qs = map originIndex ps /\ length qs = length ps.
Proof.
  intros Hid. split.
  - assert (E : forall l : list Particle,
               map originIndex l = map snd (map identity l))
      by (intros l; rewrite map_map; reflexivity).
    now rewrite (E qs), (E ps), Hid.
  - rewrite <- (length_map identity qs), Hid. apply length_map.
Qed.

Lemma setMode_indexed (m : SceneMode) (s : ChristmasScene) :
  indexed s -> indexed (state_of (setMode m s)).
Proof.
  unfold indexed. intros H.
  destruct (originIndex_identity _ _ (setMode_identity m s)) as [-> ->].
  exact H.
Qed.

Lemma push_indexed (s : ChristmasScene) (p : Particle) (g : Random) :
  originIndex p = length (particles s) ->
  indexed s ->
  indexed (set_entropy g (set_particles (particles s ++ [p]) s)).
Proof.
  unfold indexed. simpl. intros Hp H.
  rewrite map_app, length_app, H. simpl. rewrite Hp, Nat.add_1_r, seq_S.
  reflexivity.
Qed.

Lemma addPhotoToScene_indexed (s : ChristmasScene) :
  indexed s -> indexed (state_of (addPhotoToScene s)).
Proof.
  intros H. unfold addPhotoToScene, new_Particle, Math_random.
  apply setMode_indexed. apply push_indexed; [reflexivity|exact H].
Qed.

Lemma animate_indexed (s : ChristmasScene) :
  indexed s -> indexed (animate s).
Proof.
  unfold indexed, animate. simpl. intros H.
  rewrite map_map, length_map, <- H. apply map_ext.
  intros p. unfold update.
  repeat match goal with |- context [if ?b then _ else _] => destruct b end;
    reflexivity.
Qed.

Lemma initParticles_loop_spec (remaining : nat) (s : ChristmasScene) :
  indexed s ->
  let s' := initParticles_loop remaining (length (particles s)) s in
  indexed s' /\
  length (particles s') = (length (particles s) + remaining)%nat /\
  mode s' = mode s /\ focusTargetIdx s' = focusTargetIdx s.
Proof.
  revert s. induction remaining as [|n IH]; intros s H; simpl.
  - repeat split; [exact H|lia].
  - match goal with
    | |- context [let (_, _) := ?c in _] => destruct c as [ty g2]
    end.
    match goal with
    | |- context [initParticles_loop n _ ?s1] =>
        assert (H1 : indexed s1) by (apply push_indexed; [reflexivity|exact H]);
        assert (Hlen : length (particles s1) = S (length (particles s)))
          by (simpl; rewrite length_app; simpl; lia);
        specialize (IH s1 H1); rewrite Hlen in IH;
        destruct IH as (Hidx & Hl & Hm & Hf)
    end.
    repeat split; [exact Hidx|lia|exact Hm|exact Hf].
Qed.

(** The constructor never raises; it leaves TREE mode, no focus target,
    and the ornaments followed by one photo, numbered in order. *)
Lemma new_ChristmasScene_completes (g : Random) :
  exists s, new_ChristmasScene g = Normal s /\
            mode s = TREE /\ focusTargetIdx s = None /\
            length (particles s) = S totalCount /\ indexed s.
Proof.
  unfold new_ChristmasScene, initParticles, initPhotoWall.
  generalize totalCount. intros n.
  destruct (@initParticles_loop_spec n
              (mkScene [] new_Object3D TREE None g) eq_refl)
    as (Hidx & Hlen & Hmode & Hfocus).
  simpl in Hidx, Hlen, Hmode, Hfocus.
  rewrite setMode_leaving by discriminate. cbn [and_then].
  set (s1 := laid_out TREE _).
  assert (Hidx1 : indexed (initDust s1)).
  { apply (setMode_indexed TREE) in Hidx.
    rewrite setMode_leaving in Hidx by discriminate. exact Hidx. }
  assert (Hlen1 : length (particles (initDust s1)) = n).
  { unfold s1. simpl. rewrite forEach_length. exact Hlen. }
  pose proof (addPhotoToScene_indexed Hidx1) as Hidx2.
  assert (Hlen2 : length (particles (state_of
                    (addPhotoToScene (initDust s1)))) = S n).
  { rewrite <- (length_map identity), addPhotoToScene_identity.
    rewrite length_app, length_map, Hlen1. simpl. lia. }
  unfold addPhotoToScene, new_Particle, Math_random in *.
  rewrite setMode_leaving in * by discriminate. cbn [and_then state_of] in *.
  eexists. split; [reflexivity|].
  split; [reflexivity|]. split; [reflexivity|]. split.
  - unfold animate. cbn [particles set_particles]. rewrite length_map.
    exact Hlen2.
  - apply animate_indexed. exact Hidx2.
Qed.

Lemma step_indexed (e : Event) (s : ChristmasScene) :
  indexed s -> indexed (step e s).
Proof.
  destruct e as [m| |c|]; simpl.
  - apply setMode_indexed.
  - apply addPhotoToScene_indexed.
  - destruct c; intros H; exact H.
  - apply animate_indexed.
Qed.

(** In every reachable state the originIndex of a particle is its
    position in the list, which is what [i === this.focusTargetIdx]
    relies on. *)
Lemma reachable_indexed (s : ChristmasScene) : reachable s -> indexed s.
Proof.
  induction 1 as [g|e s _ IH].
  - destruct (new_ChristmasScene_completes g) as (s & -> & _ & _ & _ & H).
    exact H.
  - apply step_indexed. exact IH.
Qed.

(** Outside the invariant: with no photo to choose from, setMode(FOCUS)
    keeps whatever focus target was stored. *)
Lemma stale_focus_is_kept (s : ChristmasScene) :
  filter is_photo (particles s) = [] ->
  exists s', setMode FOCUS s = Normal s' /\
             focusTargetIdx s' = focusTargetIdx s.
Proof.
  intros Hnone. rewrite setMode_unfold, (choose_focus_no_photo s Hnone).
  eexists. split; reflexivity.
Qed.

End SceneInvariants.

(* ================================================================== *)
(** * The layouts over the reals *)


Section RealScene.

Local Open Scope R_scope.

Lemma Q2R_int (z : Z) : Q2R (z # 1) = IZR z.
Proof. unfold Q2R. simpl. field. Qed.

(** C3 fails as written: no maxRadius and height make the target
    position (cos(angle)·radius, t·height − height/2, sin(angle)·radius).
    Of two particles the second has t = 1/2, where the written formula
    gives height 0 whatever the height, and the code gives 1. *)
Lemma tree_not_centred :
  ~ exists maxRadius height : R,
      forall (s : @ChristmasScene Real.number)
             (i : nat) (p' : Particle),
        nth_error (particles (state_of (setMode TREE s))) i = Some p' ->
        let N := length (particles s) in
        let t := INR i / INR N in
        let radius := maxRadius * (1 - t) in
        let angle := t * 45 * PI in
        targetPos p' = @mkVector3 Real.number
                         (cos angle * radius)
                         (t * height - height / 2)
                         (sin angle * radius) /\
        ey (targetRot p') = angle.
Proof.
  intros (maxRadius & height & H).
  destruct (H Scenes.pair 1%nat _ eq_refl) as [Hpos _].
  apply (f_equal (@vy Real.number)) in Hpos. simpl in Hpos.
  rewrite !Q2R_int in Hpos. lra.
Qed.

(** C4 fails as written: two calls of setMode(SCATTER) in a row on a
    one-particle scene, with Math.random returning 0 and then 1/2, put
    the target at z = −8 the first time and at z = −15 the second. *)
Lemma scatter_redraws_radius :
  ~ forall (X : SceneMode) (s : @ChristmasScene Real.number),
      X <> FOCUS ->
      map target (particles (state_of (setMode X (state_of (setMode X s)))))
      = map target (particles (state_of (setMode X s))).
Proof.
  intros H. specialize (H SCATTER Scenes.single ltac:(discriminate)).
  apply (f_equal (map (fun tr => vz (fst tr)))) in H.
  simpl in H. inversion H as [Hz]. clear H.
  rewrite !Q2R_int in Hz.
  replace (-1 + 2 * 0 / 1) with (-1) in Hz by lra.
  rewrite cos_acos in Hz by lra. lra.
Qed.

(** The sphere of radius [radius] around the origin carries every point
    that the shell formula produces. *)
Lemma shell_norm (radius theta phi : R) :
  (radius * cos theta * sin phi)² + (radius * sin theta * sin phi)²
  + (radius * cos phi)² = radius².
Proof.
  unfold Rsqr.
  pose proof (sin2_cos2 theta) as Ht. pose proof (sin2_cos2 phi) as Hp.
  unfold Rsqr in Ht, Hp.
  replace (radius * cos theta * sin phi * (radius * cos theta * sin phi)
           + radius * sin theta * sin phi * (radius * sin theta * sin phi)
           + radius * cos phi * (radius * cos phi))
    with (radius * radius
          * ((sin theta * sin theta + cos theta * cos theta)
             * (sin phi * sin phi) + cos phi * cos phi)) by ring.
  rewrite Ht, Rmult_1_l, Hp. ring.
Qed.

(** C8. With Math.random in [0, 1), setMode(SCATTER) sends the particle
    at index [i] of [N] to the point with polar angle
    phi = acos(−1 + 2i/N) and azimuth theta = sqrt(N·π)·phi on the
    sphere of radius 8 + 14·r, where r is the draw made for that
    particle; the radius lies in the band from 8 to 22 whatever [i]. *)
Theorem scatter_on_shell (s : @ChristmasScene Real.number)
        (i : nat) (p : Particle) :
  (forall k, 0 <= draws (entropy s) k < 1) ->
  nth_error (particles s) i = Some p ->
  exists (s' : ChristmasScene) (p' : Particle) (radius : R),
    setMode SCATTER s = Normal s' /\
    nth_error (particles s') i = Some p' /\
    radius = 8 + draws (entropy s) (calls (entropy s) + i) * 14 /\
    8 <= radius < 22 /\
    let N := length (particles s) in
    let phi := acos (-1 + 2 * INR i / INR N) in
    let theta := sqrt (INR N * PI) * phi in
    targetPos p' = @mkVector3 Real.number
                     (radius * cos theta * sin phi)
                     (radius * sin theta * sin phi)
                     (radius * cos phi) /\
    (vx (targetPos p'))² + (vy (targetPos p'))² + (vz (targetPos p'))²
    = radius².
Proof.
  intros Hdraw Hp.
  destruct (@scatter_targets _ _ s i p Hp)
    as (s' & p' & Hs' & Hp' & _ & _ & Hpos & _).
  exists s', p', (8 + draws (entropy s) (calls (entropy s) + i) * 14).
  split; [exact Hs'|]. split; [exact Hp'|]. split; [reflexivity|]. split.
  - specialize (Hdraw (calls (entropy s) + i)%nat). lra.
  - cbv zeta. rewrite Hpos. unfold shell_point, shell_radius.
    cbn [nadd nmul ndiv lit of_nat Real.number Math_acos Math_sqrt Math_cos
         Math_sin Math_PI Real.scene_math vx vy vz].
    rewrite !Q2R_int. split; [reflexivity|]. apply shell_norm.
Qed.

(** The smoothing of C9 over the reals: each update closes 8% of the gap
    between the group's pitch and yaw and their targets. *)
Lemma smoothing_closes_gap (s : @ChristmasScene Real.number)
      (c : @Point2 Real.number) :
  let r := rotation (mainGroup s) in
  let r' := rotation (mainGroup (updateInteraction (Some c) s)) in
  ex r' - (-0.6) * (py c - 0.5) = 0.92 * (ex r - (-0.6) * (py c - 0.5)) /\
  ey r' - 0.9 * (px c - 0.5) = 0.92 * (ey r - 0.9 * (px c - 0.5)).
Proof.
  simpl. unfold MathUtils_lerp. simpl. unfold Q2R. simpl. split; lra.
Qed.

End RealScene.

Section RealWitnesses.

Local Open Scope R_scope.

(** The second of two ornaments sits at t = 1/2 of the helix. *)
Lemma tree_targets_witness :
  exists s' p',
    setMode TREE Scenes.pair = Normal s' /\
    nth_error (particles s') 1 = Some p' /\
    targetPos p' = @mkVector3 Real.number
                     (cos (1 / 2 * 45 * PI) * (14 * (1 - 1 / 2)))
                     (1 / 2 * 26 - 12)
                     (sin (1 / 2 * 45 * PI) * (14 * (1 - 1 / 2))) /\
    targetRot p' = @mkEuler Real.number 0 (1 / 2 * 45 * PI) 0.
Proof.
  destruct (@tree_targets Real.number Real.scene_math Scenes.pair 1
              (Scenes.ornament 1) eq_refl)
    as (s' & p' & Hs' & Hp' & Hpos & Hrot).
  exists s', p'. split; [exact Hs'|]. split; [exact Hp'|].
  rewrite Hpos, Hrot. simpl. rewrite !Q2R_int.
  replace (1 / (1 + 1)) with (1 / 2) by lra. split; reflexivity.
Defined.


(** With a generator stuck at 0 every radius is the inner one. *)
Lemma scatter_on_shell_witness :
  exists (s' : ChristmasScene) (p' : Particle),
    setMode SCATTER Scenes.pair = Normal s' /\
    nth_error (particles s') 1 = Some p' /\
    ((vx (targetPos p'))² + (vy (targetPos p'))² + (vz (targetPos p'))²
     = (8 + 0 * 14)²).
Proof.
  destruct (@scatter_on_shell Scenes.pair 1 (Scenes.ornament 1))
    as (s' & p' & radius & Hs' & Hp' & Hr & _ & _ & Hnorm).
  - intros k. simpl. lra.
  - reflexivity.
  - exists s', p'. split; [exact Hs'|]. split; [exact Hp'|].
    rewrite Hnorm, Hr. reflexivity.
Defined.

(** The invariant after the first pinch on a freshly built scene. *)
Lemma focus_target_invariant_witness :
  focus_inv (step (EsetMode FOCUS) (state_of (new_ChristmasScene Scenes.still))).
Proof.
  exact (@focus_target_invariant Real.number Real.scene_math _
           (reach_step (EsetMode FOCUS) (reach_new Scenes.still))).
Defined.

End RealWitnesses.

(* ================================================================== *)
(** * More on the classifier *)

Section MoreGestureFacts.

Context {J : JSNumber} {M : GestureMath J}.
Local Open Scope js_scope.

(** The classifier on a set that has the six landmarks it reads. *)
Lemma processGestures_run (landmarks : list Landmark)
      (wrist thumb index f12 f16 f20 : Landmark) :
  at_index landmarks 0 = Some wrist ->
  at_index landmarks 4 = Some thumb ->
  at_index landmarks 8 = Some index ->
  at_index landmarks 12 = Some f12 ->
  at_index landmarks 16 = Some f16 ->
  at_index landmarks 20 = Some f20 ->
  processGestures landmarks =
  let avg := average [wrist_dist index wrist; wrist_dist f12 wrist;
                      wrist_dist f16 wrist; wrist_dist f20 wrist] in
  if pinch_dist thumb index <? lit 0.05 then Some FOCUS
  else if avg <? lit 0.25 then Some TREE
  else if avg >? lit 0.4 then Some SCATTER else Some TREE.
Proof.
  intros Hw Ht Hi H12 H16 H20. unfold processGestures.
  rewrite Ht, Hi. cbn [bind].
  destruct (pinch_dist thumb index <? lit 0.05); [reflexivity|].
  rewrite Hw, H12, H16, H20. reflexivity.
Qed.

(** X1. On a 21-point set FOCUS is answered only on a pinch (the hypot
    of the three coordinate differences of thumb and index tip below
    0.05), and SCATTER only when there is no pinch and the fingertip
    average (the sum of the hypots of the coordinate differences
    between fingertips 8, 12, 16, 20 and the wrist, divided by 4)
    exceeds 0.4. *)
Theorem classifier_converse {L : JSNumberLaws J}
        (landmarks : list Landmark)
        (wrist thumb index f12 f16 f20 : Landmark) :
  length landmarks = 21 ->
  at_index landmarks 0 = Some wrist ->
  at_index landmarks 4 = Some thumb ->
  at_index landmarks 8 = Some index ->
  at_index landmarks 12 = Some f12 ->
  at_index landmarks 16 = Some f16 ->
  at_index landmarks 20 = Some f20 ->
  let dist (a b : Landmark) :=
    Math_hypot (lx a - lx b) (ly a - ly b) (lz a - lz b) in
  let avg := ((((lit 0 + dist index wrist) + dist f12 wrist)
               + dist f16 wrist) + dist f20 wrist) / of_nat 4 in
  (processGestures landmarks = Some FOCUS <->
   (dist thumb index <? lit 0.05) = true) /\
  (processGestures landmarks = Some SCATTER <->
   (dist thumb index <? lit 0.05) = false /\ (avg >? lit 0.4) = true).
Proof.
  intros _ Hw Ht Hi H12 H16 H20 dist avg.
  rewrite (processGestures_run _ Hw Ht Hi H12 H16 H20). cbv zeta.
  change (average _) with avg.
  change (pinch_dist thumb index) with (dist thumb index).
  destruct (dist thumb index <? lit 0.05).
  - intuition congruence.
  - destruct (avg <? lit 0.25) eqn:Hfist.
    + assert (Hno : (avg >? lit 0.4) = false).
      { destruct (avg >? lit 0.4) eqn:Hopen; [|reflexivity].
        pose proof (nlt_chain _ _ _ fist_below_open Hopen) as H.
        congruence. }
      rewrite Hno. intuition congruence.
    + destruct (avg >? lit 0.4); intuition congruence.
Qed.

(** X2. On a set with fewer than 21 points the classifier answers
    FOCUS exactly when points 4 and 8 are there and pinch (the hypot of
    their three coordinate differences is below 0.05), and raises in
    every other case; so with fewer than 9 points it always raises, and
    with fewer than 10 [predict] always raises. *)
Theorem short_landmark_sets (landmarks : list Landmark)
        (others : list (list Landmark)) :
  length landmarks < 21 ->
  (forall thumb index,
      at_index landmarks 4 = Some thumb ->
      at_index landmarks 8 = Some index ->
      processGestures landmarks
      = if Math_hypot (lx thumb - lx index) (ly thumb - ly index)
                      (lz thumb - lz index) <? lit 0.05
        then Some FOCUS else None) /\
  (length landmarks < 9 -> processGestures landmarks = None) /\
  (length landmarks < 10 -> predict (Some (landmarks :: others)) = None).
Proof.
  intros Hlen.
  assert (H20 : at_index landmarks 20 = None) by (apply nth_error_None; lia).
  split; [|split].
  - intros thumb index Ht Hi. unfold processGestures.
    rewrite Ht, Hi. cbn [bind]. unfold pinch_dist.
    destruct (_ <? lit 0.05); [reflexivity|].
    destruct (at_index landmarks 0); [|reflexivity].
    destruct (at_index landmarks 12); [|reflexivity].
    destruct (at_index landmarks 16); [|reflexivity].
    rewrite H20. reflexivity.
  - intros H9.
    assert (H8 : at_index landmarks 8 = None) by (apply nth_error_None; lia).
    unfold processGestures. rewrite H8.
    destruct (at_index landmarks 4); reflexivity.
  - intros H10.
    assert (H9 : at_index landmarks 9 = None) by (apply nth_error_None; lia).
    unfold predict. rewrite H9.
    destruct (processGestures landmarks); reflexivity.
Qed.

(** X4. The classifier reads landmarks 0, 4, 8, 12, 16 and 20 and no
    others: two sets that agree there are classified alike. *)
Theorem processGestures_reads_six (a b : list Landmark) :
  (forall i, In i [0; 4; 8; 12; 16; 20] -> at_index a i = at_index b i) ->
  processGestures a = processGestures b.
Proof.
  intros H. unfold processGestures.
  rewrite (H 0), (H 4), (H 8), (H 12), (H 16), (H 20) by (simpl; tauto).
  reflexivity.
Qed.

End MoreGestureFacts.

(** The spread hand is answered SCATTER, not FOCUS: its thumb is 0.3
    above the index tip and its fingertip average is 0.6. *)
Lemma classifier_converse_witness :
  processGestures Hands.spread = Some SCATTER /\
  processGestures Hands.spread <> Some FOCUS.
Proof.
  pose proof
    (@classifier_converse F64.number F64.gesture_math F64_laws Hands.spread
       (Hands.pt 0.1 0.1 0.1) (Hands.pt 0.2 0.3 0.6) (Hands.pt 0.2 0.3 0.3)
       (Hands.pt 0.3 0.4 0.7) (Hands.pt 0.5 0.5 0.8) (Hands.pt 0.1 0.1 0.6)
       eq_refl eq_refl eq_refl eq_refl eq_refl eq_refl eq_refl)
    as [Hfocus Hscatter].
  split.
  - apply Hscatter. split; vm_compute; reflexivity.
  - intros H. apply Hfocus in H. vm_compute in H. discriminate H.
Defined.

(** Nine points are enough for a pinch to be seen, but not for the
    palm centre to be reported; without a pinch nine points raise. *)
Lemma short_landmark_sets_witness :
  processGestures Hands.short_pinch = Some FOCUS /\
  processGestures Hands.short_spread = None /\
  predict (Some [Hands.short_pinch]) = None.
Proof.
  split; [|split].
  - exact (proj1 (@short_landmark_sets F64.number F64.gesture_math
                    Hands.short_pinch [] ltac:(vm_compute; lia))
             (Hands.pt 0.5 0.5 0) (Hands.pt 0.52 0.51 0) eq_refl eq_refl).
  - exact (proj1 (@short_landmark_sets F64.number F64.gesture_math
                    Hands.short_spread [] ltac:(vm_compute; lia))
             (Hands.pt 0.2 0.3 0.6) (Hands.pt 0.2 0.3 0.3) eq_refl eq_refl).
  - refine (proj2 (proj2
      (@short_landmark_sets F64.number F64.gesture_math Hands.short_pinch [] _))
      _); vm_compute; lia.
Defined.

Lemma processGestures_reads_six_witness :
  processGestures Hands.open_loose = processGestures Hands.open.
Proof.
  apply (@processGestures_reads_six F64.number F64.gesture_math).
  intros i Hi. simpl in Hi.
  repeat (destruct Hi as [<-|Hi]; [reflexivity|]). destruct Hi.
Defined.

(* ================================================================== *)
(** * More on the choreographer *)

Section MoreForEachFacts.

Context {A G : Type}.
Variable f : A -> nat -> G -> A * G.

(** Whatever the callback keeps true of the threaded state holds of the
    state each element is rewritten in, and of the final one. *)
Lemma forEach_nth_error_inv (P : G -> Prop) :
  (forall a i st, P st -> P (snd (f a i st))) ->
  forall l i st j a,
    P st ->
    nth_error l j = Some a ->
    exists st', P st' /\
      nth_error (fst (forEach f l i st)) j = Some (fst (f a (i + j) st')).
Proof.
  intros Hstep l. induction l as [|b l IH]; intros i st j a HP Hj.
  - destruct j; discriminate.
  - simpl. pose proof (Hstep b i st HP) as HP1.
    destruct (f b i st) as [b' st1] eqn:Eb. simpl in HP1.
    specialize (IH (S i) st1).
    destruct (forEach f l (S i) st1) as [rest st2]. simpl in IH |- *.
    destruct j as [|j]; simpl in Hj |- *.
    + inversion Hj; subst. exists st. split; [exact HP|].
      now rewrite Nat.add_0_r, Eb.
    + destruct (IH j a HP1 Hj) as (st' & HP' & Hnth).
      exists st'. split; [exact HP'|]. now rewrite Nat.add_succ_r.
Qed.

Lemma forEach_final_inv (P : G -> Prop) :
  (forall a i st, P st -> P (snd (f a i st))) ->
  forall l i st, P st -> P (snd (forEach f l i st)).
Proof.
  intros Hstep l. induction l as [|b l IH]; intros i st HP; simpl.
  - exact HP.
  - pose proof (Hstep b i st HP) as HP1.
    destruct (f b i st) as [b' st1]. simpl in HP1.
    specialize (IH (S i) st1 HP1).
    now destruct (forEach f l (S i) st1) as [rest st2].
Qed.

End MoreForEachFacts.

Section MoreSceneFacts.

Context {J : JSNumber} {SM : SceneMath J}.
Local Open Scope js_scope.

(** ** What setMode and animate leave alone *)

Lemma layout_pose_birth (m : SceneMode) (N : nat) (focus : option nat)
      (p : Particle) (i : nat) (g : Random) :
  pose (fst (layout m N focus p i g)) = pose p /\
  birth (fst (layout m N focus p i g)) = birth p.
Proof.
  destruct m; simpl; try (split; reflexivity).
  unfold focus_layout. destruct (focus_is focus i); split; reflexivity.
Qed.

Lemma layout_draws (m : SceneMode) (N : nat) (focus : option nat)
      (p : Particle) (i : nat) (g0 g : Random) :
  draws g = draws g0 -> draws (snd (layout m N focus p i g)) = draws g0.
Proof.
  intros H. destruct m; simpl; try exact H.
  unfold focus_layout. destruct (focus_is focus i); simpl; exact H.
Qed.

Lemma choose_focus_draws (m : SceneMode) (s : ChristmasScene) :
  draws (entropy (state_of (choose_focus m s))) = draws (entropy s).
Proof.
  unfold choose_focus. destruct (SceneMode_eqb m FOCUS); [|reflexivity].
  simpl. destruct (Nat.ltb 0 _); [|reflexivity].
  destruct (Math_floor_index _) as [k|]; [|reflexivity].
  destruct (nth_error _ k); reflexivity.
Qed.

Lemma setMode_keeps (m : SceneMode) (s : ChristmasScene) :
  map birth (particles (state_of (setMode m s))) = map birth (particles s) /\
  mainGroup (state_of (setMode m s)) = mainGroup s /\
  mode (state_of (setMode m s)) = m /\
  draws (entropy (state_of (setMode m s))) = draws (entropy s).
Proof.
  rewrite setMode_unfold.
  rewrite <- (choose_focus_particles m s), <- (choose_focus_mainGroup m s).
  rewrite <- (choose_focus_draws m s).
  pose proof (choose_focus_mode m s) as Hmode.
  destruct (choose_focus m s) as [s1|s1]; simpl in *.
  - repeat split.
    + apply forEach_map_keeps. intros a i st. apply layout_pose_birth.
    + exact Hmode.
    + apply (forEach_final_inv _ (fun g => draws g = draws (entropy s1))).
      * intros a i st. apply layout_draws.
      * reflexivity.
  - repeat split. exact Hmode.
Qed.

(** X5. setMode never moves a particle: whatever the mode, and whether
    or not the call completes, every particle keeps its current
    position and rotation, its type, originIndex and velocity, the
    group keeps its transform, and the stored mode is the one asked
    for. *)
Theorem setMode_frame (m : SceneMode) (s : ChristmasScene) :
  let s' := state_of (setMode m s) in
  map pose (particles s') = map pose (particles s) /\
  map birth (particles s') = map birth (particles s) /\
  mainGroup s' = mainGroup s /\
  mode s' = m.
Proof.
  cbv zeta. split.
  - rewrite setMode_unfold. rewrite <- (choose_focus_particles m s).
    destruct (choose_focus m s) as [s1|s1]; simpl; [|reflexivity].
    apply forEach_map_keeps. intros a i st. apply layout_pose_birth.
  - destruct (setMode_keeps m s) as (Hb & Hg & Hm & _). auto.
Qed.

Lemma update_keeps (p : Particle) (m : SceneMode) (focus : option nat) :
  target (update p m focus) = target p /\
  birth (update p m focus) = birth p /\
  scale (mesh (update p m focus)) = scale (mesh p).
Proof.
  unfold update.
  repeat match goal with |- context [if ?b then _ else _] => destruct b end;
    repeat split.
Qed.

(** X6. A frame tick only moves particles: targets, scales, types,
    originIndex and velocities, the mode, the focus target, the group
    transform and the state of Math.random are all left as they were. *)
Theorem animate_frame (s : ChristmasScene) :
  let s' := animate s in
  map target (particles s') = map target (particles s) /\
  map birth (particles s') = map birth (particles s) /\
  map (fun p => scale (mesh p)) (particles s')
  = map (fun p => scale (mesh p)) (particles s) /\
  mainGroup s' = mainGroup s /\ mode s' = mode s /\
  focusTargetIdx s' = focusTargetIdx s /\ entropy s' = entropy s.
Proof.
  cbv zeta. unfold animate. simpl. rewrite !map_map.
  repeat split; apply map_ext; intros p; apply update_keeps.
Qed.

Lemma laid_out_scale_one (m : SceneMode) (s : ChristmasScene) :
  m <> FOCUS ->
  Forall (fun p => scale (mesh p) = mkVector3 (lit 1) (lit 1) (lit 1))
         (particles (laid_out m s)).
Proof.
  intros Hm. apply Forall_forall. intros p' Hin.
  apply In_nth_error in Hin. destruct Hin as [i Hi].
  assert (Hlt : i < length (particles s)).
  { assert (Hsome : nth_error (particles (laid_out m s)) i <> None)
      by (rewrite Hi; discriminate).
    apply nth_error_Some in Hsome. now rewrite laid_out_length in Hsome. }
  destruct (nth_error (particles s) i) as [p|] eqn:Hp;
    [|apply nth_error_None in Hp; lia].
  destruct m; [| |now elim Hm].
  - rewrite (@TREE_nth _ _ s i p Hp) in Hi. inversion Hi. reflexivity.
  - rewrite (@SCATTER_nth _ _ s i p Hp) in Hi. inversion Hi. reflexivity.
Qed.

(** X7. setMode(TREE) and setMode(SCATTER) always complete, clear the
    focus target and give every particle scale (1, 1, 1) again. *)
Theorem leaving_focus_resets (m : SceneMode) (s : ChristmasScene) :
  m <> FOCUS ->
  exists s', setMode m s = Normal s' /\
             mode s' = m /\ focusTargetIdx s' = None /\
             length (particles s') = length (particles s) /\
             Forall (fun p => scale (mesh p)
                              = mkVector3 (lit 1) (lit 1) (lit 1))
                    (particles s').
Proof.
  intros Hm. rewrite (setMode_leaving s Hm).
  eexists. split; [reflexivity|]. split; [reflexivity|].
  split; [reflexivity|]. split; [now rewrite laid_out_length|].
  apply laid_out_scale_one. exact Hm.
Qed.

(** ** FOCUS with a photo to show *)

Lemma indexed_position (s : ChristmasScene) (p : Particle) :
  indexed s -> In p (particles s) ->
  nth_error (particles s) (originIndex p) = Some p.
Proof.
  unfold indexed. intros Hidx Hin.
  apply In_nth_error in Hin. destruct Hin as [j Hj].
  pose proof (map_nth_error originIndex _ _ Hj) as Ho.
  rewrite Hidx in Ho.
  assert (Hlt : j < length (particles s))
    by (apply nth_error_Some; rewrite Hj; discriminate).
  rewrite (nth_error_nth' _ 0) in Ho by (rewrite length_seq; exact Hlt).
  rewrite seq_nth in Ho by exact Hlt. inversion Ho as [Ej].
  simpl in Ej. rewrite <- Ej. exact Hj.
Qed.

(** X8. When setMode(FOCUS) completes with a focus target [k], the
    particle at index [k] is a photo; it is given the presentation pose
    (target position (0, 2, 35), target rotation zero, scale 4.5) and
    every other particle is sent to the plane z = −15 at scale 0.4 with
    its target rotation left as it was. *)
Theorem focus_presentation (s s' : ChristmasScene) (k : nat) :
  focus_inv s -> indexed s ->
  setMode FOCUS s = Normal s' ->
  focusTargetIdx s' = Some k ->
  (exists p p',
      nth_error (particles s) k = Some p /\
      nth_error (particles s') k = Some p' /\
      type p' = "PHOTO"%string /\
      targetPos p' = mkVector3 (lit 0) (lit 2) (lit 35) /\
      targetRot p' = mkEuler (lit 0) (lit 0) (lit 0) /\
      scale (mesh p') = mkVector3 (lit 4.5) (lit 4.5) (lit 4.5)) /\
  (forall i p p',
      i <> k ->
      nth_error (particles s) i = Some p ->
      nth_error (particles s') i = Some p' ->
      vz (targetPos p') = lit (-15) /\
      targetRot p' = targetRot p /\
      scale (mesh p') = mkVector3 (lit 0.4) (lit 0.4) (lit 0.4)).
Proof.
  intros Hinv Hidx Hrun Hk.
  rewrite setMode_unfold in Hrun.
  pose proof (choose_focus_inv FOCUS Hinv) as Hinv1.
  pose proof (choose_focus_particles FOCUS s) as Hparts.
  destruct (choose_focus FOCUS s) as [s1|s1]; [|discriminate].
  simpl in Hrun, Hinv1, Hparts. inversion Hrun; subst s'. clear Hrun.
  change (focusTargetIdx s1 = Some k) in Hk.
  destruct Hinv1 as [_ Hphoto].
  destruct (Hphoto k Hk) as (p & Hin & Hty & Hok).
  rewrite Hparts in Hin.
  pose proof (@indexed_position s p Hidx Hin) as Hpk. rewrite Hok in Hpk.
  split.
  - exists p.
    destruct (@forEach_nth_error_inv _ _
                (layout FOCUS (length (particles s1)) (focusTargetIdx s1))
                (fun _ => True) (fun _ _ _ _ => I)
                (particles s1) 0 (entropy s1) k p I)
      as (g & _ & Hnth); [rewrite Hparts; exact Hpk|].
    eexists. split; [exact Hpk|]. split; [exact Hnth|].
    rewrite Hk. simpl. unfold focus_layout, focus_is.
    rewrite Nat.eqb_refl. simpl. repeat split. exact Hty.
  - intros i q q' Hik Hq Hq'.
    destruct (@forEach_nth_error_inv _ _
                (layout FOCUS (length (particles s1)) (focusTargetIdx s1))
                (fun _ => True) (fun _ _ _ _ => I)
                (particles s1) 0 (entropy s1) i q I)
      as (g & _ & Hnth); [rewrite Hparts; exact Hq|].
    unfold laid_out in Hq'. simpl in Hq', Hnth. rewrite Hnth in Hq'.
    inversion Hq' as [Eq']. rewrite Hk. simpl. unfold focus_layout, focus_is.
    apply Nat.eqb_neq in Hik. rewrite Hik. simpl. repeat split.
Qed.

(** ** Particles are only ever added *)

Lemma animate_birth (s : ChristmasScene) :
  map birth (particles (animate s)) = map birth (particles s).
Proof.
  unfold animate. simpl. rewrite map_map. apply map_ext.
  intros p. apply update_keeps.
Qed.

Lemma addPhotoToScene_birth (s : ChristmasScene) :
  exists v, map birth (particles (state_of (addPhotoToScene s)))
            = map birth (particles s)
              ++ [("PHOTO"%string, length (particles s), v)].
Proof.
  unfold addPhotoToScene, new_Particle, Math_random. eexists.
  match goal with
  | |- context [setMode ?m ?s0] =>
      rewrite (proj1 (setMode_keeps m s0))
  end.
  cbn [particles set_entropy set_particles]. rewrite map_app. reflexivity.
Qed.

(** X9. No event removes, reorders or re-labels a particle: after any
    event the list of (type, originIndex, velocity) is the list from
    before, with one PHOTO entry numbered by the old length appended by
    addPhotoToScene and nothing appended otherwise. *)
Theorem no_event_forgets (e : Event) (s : ChristmasScene) :
  exists born,
    map birth (particles (step e s)) = map birth (particles s) ++ born /\
    match e with
    | EaddPhoto =>
        exists v, born = [("PHOTO"%string, length (particles s), v)]
    | _ => born = []
    end.
Proof.
  destruct e as [m| |c|]; simpl.
  - exists []. rewrite app_nil_r. split; [apply setMode_keeps|reflexivity].
  - destruct (addPhotoToScene_birth s) as [v Hv].
    eexists. split; [exact Hv|]. now exists v.
  - exists []. rewrite app_nil_r. split; [|reflexivity]. now destruct c.
  - exists []. rewrite app_nil_r. split; [apply animate_birth|reflexivity].
Qed.

(** X10. Adding a photo while in TREE mode re-spaces the whole helix:
    the call completes and, with [N] the new particle count, particle
    [i] gets the TREE target for index [i] of [N], the new photo taking
    the last slot. *)
Theorem addPhoto_respaces_tree (s : ChristmasScene) :
  mode s = TREE ->
  exists s',
    addPhotoToScene s = Normal s' /\
    map target (particles s')
    = map (tree_target (S (length (particles s))))
          (seq 0 (S (length (particles s)))).
Proof.
  intros Hmode. unfold addPhotoToScene, new_Particle, Math_random.
  cbn [mode set_entropy set_particles]. rewrite Hmode.
  rewrite setMode_leaving by discriminate.
  eexists. split; [reflexivity|].
  rewrite laid_out_TREE_targets.
  cbn [particles set_focusTargetIdx set_mode set_entropy set_particles].
  rewrite length_app, Nat.add_1_r. reflexivity.
Qed.

(** ** updateInteraction and the rest *)

Lemma setMode_set_mainGroup (o : Object3D) (m : SceneMode)
      (s : ChristmasScene) :
  setMode m (set_mainGroup o s)
  = match setMode m s with
    | Normal s' => Normal (set_mainGroup o s')
    | Throw s' => Throw (set_mainGroup o s')
    end.
Proof.
  unfold setMode, choose_focus.
  cbn [particles entropy set_mainGroup set_mode].
  destruct (SceneMode_eqb m FOCUS).
  - destruct (Nat.ltb 0 _).
    + destruct (Math_random (entropy s)) as [r g].
      destruct (Math_floor_index _) as [k|]; [|reflexivity].
      destruct (nth_error _ k) as [t|]; [|reflexivity].
      cbn. now destruct (forEach _ _ _ _).
    + cbn. now destruct (forEach _ _ _ _).
  - cbn. now destruct (forEach _ _ _ _).
Qed.

(** X12. updateInteraction commutes with setMode and with a frame tick:
    rotating the group first or afterwards gives the same state, and
    the same completion. *)
Theorem updateInteraction_commutes (c : option Point2) (m : SceneMode)
        (s : ChristmasScene) :
  setMode m (updateInteraction c s)
  = match setMode m s with
    | Normal s' => Normal (updateInteraction c s')
    | Throw s' => Throw (updateInteraction c s')
    end /\
  animate (updateInteraction c s) = updateInteraction c (animate s).
Proof.
  destruct c as [c|]; simpl.
  - split; [|reflexivity].
    match goal with
    | |- setMode m (set_mainGroup ?o s) = _ =>
        rewrite (setMode_set_mainGroup o m s)
    end.
    pose proof (setMode_keeps m s) as (_ & Hgroup & _).
    destruct (setMode m s) as [s'|s']; simpl in Hgroup; now rewrite Hgroup.
  - split; [|reflexivity]. now destruct (setMode m s).
Qed.

End MoreSceneFacts.

Section ConstructionFacts.

Context {J : JSNumber} {SM : SceneMath J}.
Local Open Scope js_scope.

Lemma initParticles_loop_types (remaining i : nat) (s : ChristmasScene) :
  exists tys,
    map type (particles (initParticles_loop remaining i s))
    = map type (particles s) ++ tys /\
    length tys = remaining /\ Forall is_ornament tys.
Proof.
  revert i s. induction remaining as [|n IH]; intros i s; simpl.
  - exists []. rewrite app_nil_r. repeat split. constructor.
  - match goal with
    | |- context [let (_, _) := ?c in _] =>
        assert (Hty : is_ornament (fst c))
          by (unfold is_ornament;
              repeat match goal with
                     | |- context [if ?b then _ else _] => destruct b
                     end; simpl; tauto);
        destruct c as [ty g2]
    end.
    simpl in Hty.
    match goal with
    | |- context [initParticles_loop n _ ?s1] =>
        destruct (IH (S i) s1) as (tys & Htys & Hlen & Hall)
    end.
    exists (ty :: tys). rewrite Htys. simpl. rewrite map_app. simpl.
    rewrite <- app_assoc. simpl. repeat split.
    + now rewrite Hlen.
    + now constructor.
Qed.

Lemma types_of_identity (ps qs : list Particle) :
  map identity qs = map identity ps -> map type qs = map type ps.
Proof.
  intros Hid.
  assert (E : forall l : list Particle,
             map type l = map fst (map identity l))
    by (intros l; rewrite map_map; reflexivity).
  now rewrite (E qs), (E ps), Hid.
Qed.

Lemma animate_identity (s : ChristmasScene) :
  map identity (particles (animate s)) = map identity (particles s).
Proof.
  unfold animate. simpl. rewrite map_map. apply map_ext.
  intros p. unfold update.
  repeat match goal with |- context [if ?b then _ else _] => destruct b end;
    reflexivity.
Qed.

Lemma new_ChristmasScene_types (g : Random) :
  exists s tys,
    new_ChristmasScene g = Normal s /\
    map type (particles s) = tys ++ ["PHOTO"%string] /\
    length tys = totalCount /\
    Forall is_ornament tys.
Proof.
  unfold new_ChristmasScene, initParticles, initPhotoWall.
  generalize totalCount. intros n.
  destruct (initParticles_loop_types n 0 (mkScene [] new_Object3D TREE None g))
    as (tys & Htys & Hlen & Hall).
  simpl in Htys.
  rewrite setMode_leaving by discriminate. cbn [and_then].
  set (s1 := laid_out TREE _).
  assert (Hs1 : map type (particles (initDust s1)) = tys).
  { rewrite <- Htys. apply types_of_identity. unfold s1.
    exact (laid_out_identity TREE
             (set_focusTargetIdx None
                (set_mode TREE
                   (initParticles_loop n 0
                      (mkScene [] new_Object3D TREE None g))))). }
  pose proof (addPhotoToScene_identity (initDust s1)) as Hadd.
  apply (f_equal (map fst)) in Hadd.
  rewrite map_app, !map_map in Hadd. simpl in Hadd.
  unfold addPhotoToScene, new_Particle, Math_random in *.
  rewrite setMode_leaving in * by discriminate. cbn [and_then state_of] in *.
  eexists. exists tys. split; [reflexivity|]. split; [|split; assumption].
  rewrite (types_of_identity _ _ (animate_identity _)).
  rewrite <- Hs1. exact Hadd.
Qed.



End ConstructionFacts.

Section AppFacts.

Context {J : JSNumber} {M : GestureMath J} {SM : SceneMath J}.
Local Open Scope js_scope.

(** X13. A detection result without a hand, taken through [predict] and
    the page's callback: while the page is in TREE mode the scene is
    left exactly as it was; in any other mode the scene is switched to
    TREE without an exception, the focus target is cleared, every
    particle is back at scale 1 and the group keeps its rotation. *)
Theorem frame_without_hand (gestureMode : SceneMode) (s : ChristmasScene) :
  frame TREE None s = Normal s /\
  frame TREE (Some []) s = Normal s /\
  (gestureMode <> TREE ->
   exists s',
     frame gestureMode None s = Normal s' /\
     frame gestureMode (Some []) s = Normal s' /\
     mode s' = TREE /\ focusTargetIdx s' = None /\
     mainGroup s' = mainGroup s /\
     Forall (fun p => scale (mesh p) = mkVector3 (lit 1) (lit 1) (lit 1))
            (particles s')).
Proof.
  split; [reflexivity|]. split; [reflexivity|].
  intros Hgm. unfold frame, onUpdate. cbn [predict gmode palmCenter].
  assert (Hneq : SceneMode_eqb TREE gestureMode = false)
    by (destruct gestureMode; (reflexivity || now elim Hgm)).
  rewrite Hneq. cbn [negb]. rewrite setMode_leaving by discriminate.
  eexists. split; [reflexivity|]. split; [reflexivity|].
  split; [reflexivity|]. split; [reflexivity|]. split; [reflexivity|].
  apply (laid_out_scale_one (m := TREE)). discriminate.
Qed.

End AppFacts.

(* ================================================================== *)
(** * The choreographer over the reals *)

Section RealChoice.

Local Open Scope R_scope.

(** [Math.floor] of a number in [0, n) is an index below [n]. *)
Lemma floor_index_below (x : R) (n : nat) :
  0 <= x < INR n ->
  exists k, Real.floor_index x = Some k /\ (k < n)%nat.
Proof.
  intros [Hlo Hhi]. unfold Real.floor_index.
  destruct (base_Int_part x) as [Hle Hgt].
  assert (H0 : (0 <= Int_part x)%Z).
  { assert (H : (-1 < Int_part x)%Z) by (apply lt_IZR; lra). lia. }
  assert (Hn : (Int_part x < Z.of_nat n)%Z).
  { apply lt_IZR. rewrite <- INR_IZR_INZ. lra. }
  destruct (Z_lt_dec (Int_part x) 0); [lia|].
  eexists. split; [reflexivity|]. lia.
Qed.

Lemma photo_list_nonempty (s : @ChristmasScene Real.number) :
  In "PHOTO"%string (map type (particles s)) ->
  filter is_photo (particles s) <> [].
Proof.
  intros Hin. apply in_map_iff in Hin. destruct Hin as (p & Hty & Hin).
  assert (Hp : In p (filter is_photo (particles s))).
  { apply filter_In. split; [exact Hin|]. unfold is_photo. now rewrite Hty. }
  intros Hnil. rewrite Hnil in Hp. destruct Hp.
Qed.

(** With draws in [0, 1) the index computed for the photo list is
    always one of its indices. *)
Lemma choose_focus_picks (s : @ChristmasScene Real.number) :
  unit_draws (entropy s) ->
  filter is_photo (particles s) <> [] ->
  exists t,
    In t (filter is_photo (particles s)) /\
    choose_focus FOCUS s
    = Normal (set_focusTargetIdx (Some (originIndex t))
                (set_entropy (next_draw (entropy s)) (set_mode FOCUS s))).
Proof.
  intros Hdraw Hsome. unfold choose_focus.
  cbn [SceneMode_eqb particles set_mode entropy].
  set (photos := filter is_photo (particles s)) in *.
  assert (Hlen : (0 < length photos)%nat).
  { destruct photos; [now elim Hsome|simpl; lia]. }
  apply Nat.ltb_lt in Hlen as Hltb. rewrite Hltb.
  unfold Math_random. cbn [nmul of_nat Real.number Math_floor_index
                           Real.scene_math].
  pose proof (Hdraw (calls (entropy s))) as Hr.
  assert (Hpos : 0 < INR (length photos)) by (now apply lt_0_INR).
  destruct (@floor_index_below
              (draws (entropy s) (calls (entropy s)) * INR (length photos))
              (length photos)) as (k & Hk & Hkn).
  { split; nra. }
  rewrite Hk.
  destruct (nth_error photos k) as [t|] eqn:Ht;
    [|apply nth_error_None in Ht; lia].
  exists t. split; [now apply nth_error_In in Ht|reflexivity].
Qed.

(** X14. With Math.random in [0, 1), setMode never raises: whatever the
    mode and the scene, the call completes; and setMode(FOCUS) selects
    a focus target whenever the scene holds a photo. *)
Theorem setMode_never_throws (m : SceneMode) (s : @ChristmasScene Real.number) :
  unit_draws (entropy s) ->
  exists s',
    setMode m s = Normal s' /\
    (m = FOCUS -> filter is_photo (particles s) <> [] ->
     exists k, focusTargetIdx s' = Some k).
Proof.
  intros Hdraw. rewrite setMode_unfold.
  destruct m.
  - rewrite choose_focus_leaving by discriminate.
    eexists. split; [reflexivity|discriminate].
  - rewrite choose_focus_leaving by discriminate.
    eexists. split; [reflexivity|discriminate].
  - destruct (filter is_photo (particles s)) as [|t0 rest] eqn:Hphotos.
    + rewrite (choose_focus_no_photo s Hphotos).
      eexists. split; [reflexivity|]. intros _ H. now elim H.
    + destruct (choose_focus_picks s Hdraw) as (t & _ & Hc);
        [rewrite Hphotos; discriminate|].
      rewrite Hc. eexists. split; [reflexivity|].
      intros _ _. now exists (originIndex t).
Qed.

(** ** Reachable scenes always hold a photo *)

Lemma types_of_birth (ps qs : list (@Particle Real.number))
      (born : list (string * nat * Vector3)) :
  map birth qs = map birth ps ++ born ->
  In "PHOTO"%string (map type ps) -> In "PHOTO"%string (map type qs).
Proof.
  intros Hb Hin.
  assert (E : forall l : list (@Particle Real.number),
             map type l = map (fun b => fst (fst b)) (map birth l))
    by (intros l; rewrite map_map; reflexivity).
  rewrite (E qs), Hb, map_app, <- (E ps). apply in_or_app. now left.
Qed.

Lemma step_keeps_photo (e : @Event Real.number) (s : ChristmasScene) :
  In "PHOTO"%string (map type (particles s)) ->
  In "PHOTO"%string (map type (particles (step e s))).
Proof.
  destruct e as [m| |c|]; simpl.
  - apply types_of_birth with (born := []).
    rewrite app_nil_r. apply setMode_keeps.
  - destruct (addPhotoToScene_birth s) as [v Hv].
    now apply types_of_birth with (born := [("PHOTO"%string,
                                             length (particles s), v)]).
  - now destruct c.
  - apply types_of_birth with (born := []).
    rewrite app_nil_r. apply animate_birth.
Qed.

Lemma reachable_has_photo (s : @ChristmasScene Real.number) :
  reachable s -> In "PHOTO"%string (map type (particles s)).
Proof.
  induction 1 as [g|e s _ IH].
  - destruct (new_ChristmasScene_types g) as (s & tys & -> & Hty & _).
    simpl. rewrite Hty. apply in_or_app. right. now left.
  - now apply step_keeps_photo.
Qed.

(** X15. In every reachable scene, with Math.random in [0, 1), a
    pinch finds something to show: setMode(FOCUS) completes and sets a
    focus target. *)
Theorem pinch_always_finds_photo (s : @ChristmasScene Real.number) :
  reachable s ->
  unit_draws (entropy s) ->
  exists s' k, setMode FOCUS s = Normal s' /\ focusTargetIdx s' = Some k.
Proof.
  intros Hreach Hdraw.
  destruct (choose_focus_picks s Hdraw) as (t & _ & Hc).
  { apply photo_list_nonempty. now apply reachable_has_photo. }
  rewrite setMode_unfold, Hc. cbn [and_then].
  eexists. exists (originIndex t). split; reflexivity.
Qed.

End RealChoice.

Section DrawsFacts.

Context {J : JSNumber} {SM : SceneMath J}.
Local Open Scope js_scope.

Lemma addPhotoToScene_draws (s : ChristmasScene) :
  draws (entropy (state_of (addPhotoToScene s))) = draws (entropy s).
Proof.
  unfold addPhotoToScene, new_Particle, Math_random.
  match goal with
  | |- context [setMode ?m ?s0] =>
      destruct (setMode_keeps m s0) as (_ & _ & _ & Hd); rewrite Hd
  end.
  reflexivity.
Qed.

Lemma step_draws (e : Event) (s : ChristmasScene) :
  draws (entropy (step e s)) = draws (entropy s).
Proof.
  destruct e as [m| |c|]; simpl.
  - apply setMode_keeps.
  - apply addPhotoToScene_draws.
  - now destruct c.
  - reflexivity.
Qed.

Lemma run_draws (es : list Event) (s : ChristmasScene) :
  draws (entropy (run es s)) = draws (entropy s).
Proof.
  revert s. induction es as [|e es IH]; intros s.
  - reflexivity.
  - change (run (e :: es) s) with (run es (step e s)).
    rewrite IH. apply step_draws.
Qed.

Lemma initParticles_loop_draws (remaining i : nat) (s : ChristmasScene) :
  draws (entropy (initParticles_loop remaining i s)) = draws (entropy s).
Proof.
  revert i s. induction remaining as [|n IH]; intros i s; simpl.
  - reflexivity.
  - match goal with
    | |- context [let (_, _) := ?c in _] =>
        assert (Hg : draws (snd c) = draws (entropy s))
          by (repeat match goal with
                     | |- context [if ?b then _ else _] => destruct b
                     end; reflexivity);
        destruct c as [ty g2]
    end.
    simpl in Hg. rewrite IH. simpl. exact Hg.
Qed.

Lemma new_ChristmasScene_draws (g : Random) :
  draws (entropy (state_of (new_ChristmasScene g))) = draws g.
Proof.
  unfold new_ChristmasScene, initParticles, initPhotoWall.
  generalize totalCount. intros n.
  rewrite setMode_leaving by discriminate. cbn [and_then].
  set (s1 := laid_out TREE _).
  assert (H1 : draws (entropy (initDust s1)) = draws g).
  { unfold s1, initDust, laid_out. cbn [entropy set_entropy skip draws].
    rewrite (forEach_final_inv _
               (fun g0 => draws g0
                          = draws (entropy (initParticles_loop n 0
                               (mkScene [] new_Object3D TREE None g))))).
    - apply initParticles_loop_draws.
    - intros a i st. apply layout_draws.
    - reflexivity. }
  pose proof (addPhotoToScene_draws (initDust s1)) as H2.
  destruct (addPhotoToScene (initDust s1)) as [s2|s2];
    cbn [and_then state_of] in *; unfold animate; simpl; congruence.
Qed.

End DrawsFacts.

Section RealFirstPinch.

Local Open Scope R_scope.



End RealFirstPinch.

Section RealGeometry.

Local Open Scope R_scope.

Lemma circle_norm (a r : R) : (cos a * r)² + (sin a * r)² = r².
Proof.
  unfold Rsqr. pose proof (sin2_cos2 a) as H. unfold Rsqr in H.
  replace (cos a * r * (cos a * r) + sin a * r * (sin a * r))
    with ((sin a * sin a + cos a * cos a) * (r * r)) by ring.
  rewrite H. ring.
Qed.

Lemma index_fraction (i N : nat) :
  (i < N)%nat -> 0 <= INR i / INR N < 1.
Proof.
  intros Hi.
  assert (HN : 0 < INR N) by (apply lt_0_INR; lia).
  assert (Hi0 : 0 <= INR i) by apply pos_INR.
  assert (HiN : INR i < INR N) by (now apply lt_INR).
  split.
  - apply Rmult_le_pos; [exact Hi0|]. left. now apply Rinv_0_lt_compat.
  - apply Rmult_lt_reg_r with (r := INR N); [exact HN|].
    unfold Rdiv. rewrite Rmult_assoc, Rinv_l by lra. lra.
Qed.

(** X17. Over the reals every TREE target lies on the cone: for index
    [i] of [N] the height is in [−12, 14), the distance from the axis is
    14·(1 − i/N), which is in (0, 14], and the target is exactly that
    far from the axis. *)
Theorem tree_targets_on_cone (s : @ChristmasScene Real.number)
        (i : nat) (p : Particle) :
  nth_error (particles s) i = Some p ->
  exists s' p',
    setMode TREE s = Normal s' /\
    nth_error (particles s') i = Some p' /\
    let radius := 14 * (1 - INR i / INR (length (particles s))) in
    -12 <= vy (targetPos p') < 14 /\
    0 < radius <= 14 /\
    (vx (targetPos p'))² + (vz (targetPos p'))² = radius².
Proof.
  intros Hp.
  assert (Hi : (i < length (particles s))%nat)
    by (apply nth_error_Some; rewrite Hp; discriminate).
  pose proof (index_fraction Hi) as Ht.
  rewrite setMode_leaving by discriminate.
  eexists. eexists. split; [reflexivity|]. split.
  - apply TREE_nth. exact Hp.
  - cbn [tree_layout set_scale set_targetRot set_targetPos set_mesh
         targetPos vx vy vz particles set_focusTargetIdx set_mode
         nadd nsub nmul ndiv lit of_nat Real.number Math_cos Math_sin
         Math_PI Real.scene_math].
    rewrite !Q2R_int. split; [lra|]. split; [lra|]. apply circle_norm.
Qed.

(** X18. Over the reals the argument of Math.acos in the SCATTER layout
    is always in [−1, 1), and the target height is the radius times
    2i/N − 1: the particles are spread over equal slices of the shell's
    axis. *)
Theorem scatter_height_is_linear (s : @ChristmasScene Real.number)
        (i : nat) (p : Particle) :
  nth_error (particles s) i = Some p ->
  exists s' p',
    setMode SCATTER s = Normal s' /\
    nth_error (particles s') i = Some p' /\
    let u := -1 + 2 * INR i / INR (length (particles s)) in
    -1 <= u < 1 /\
    vz (targetPos p')
    = (8 + draws (entropy s) (calls (entropy s) + i) * 14) * u.
Proof.
  intros Hp.
  assert (Hi : (i < length (particles s))%nat)
    by (apply nth_error_Some; rewrite Hp; discriminate).
  pose proof (index_fraction Hi) as Ht.
  destruct (@scatter_targets _ _ s i p Hp)
    as (s' & p' & Hs' & Hp' & _ & _ & Hpos & _).
  exists s', p'. split; [exact Hs'|]. split; [exact Hp'|].
  cbv zeta.
  assert (Hu : -1 <= -1 + 2 * INR i / INR (length (particles s)) < 1).
  { unfold Rdiv in *. rewrite Rmult_assoc. lra. }
  split; [exact Hu|].
  rewrite Hpos. unfold shell_point, shell_radius.
  cbn [vz nadd nmul ndiv lit of_nat Real.number Math_acos Math_cos
       Real.scene_math].
  rewrite !Q2R_int. rewrite cos_acos by lra. reflexivity.
Qed.

(** X19. Over the reals, with Math.random in [0, 1), setMode(FOCUS)
    sends every particle other than the focus target to the plane
    z = −15, at a distance from the axis between 30 and 45. *)
Theorem focus_background_ring (s s' : @ChristmasScene Real.number)
        (i : nat) (p' : Particle) :
  unit_draws (entropy s) ->
  setMode FOCUS s = Normal s' ->
  focusTargetIdx s' <> Some i ->
  nth_error (particles s') i = Some p' ->
  vz (targetPos p') = -15 /\
  exists dist, 30 <= dist <= 45 /\
               (vx (targetPos p'))² + (vy (targetPos p'))² = dist².
Proof.
  intros Hdraw Hrun Hfocus Hp'.
  rewrite setMode_unfold in Hrun.
  pose proof (choose_focus_draws FOCUS s) as Hd.
  destruct (choose_focus FOCUS s) as [s1|s1]; [|discriminate].
  simpl in Hrun, Hd. inversion Hrun; subst s'. clear Hrun.
  change (focusTargetIdx s1 <> Some i) in Hfocus.
  assert (Hi : (i < length (particles s1))%nat).
  { rewrite <- (laid_out_length FOCUS s1).
    apply nth_error_Some. rewrite Hp'. discriminate. }
  destruct (nth_error (particles s1) i) as [p|] eqn:Hp;
    [|apply nth_error_None in Hp; lia].
  destruct (@forEach_nth_error_inv _ _
              (layout FOCUS (length (particles s1)) (focusTargetIdx s1))
              (fun g => draws g = draws (entropy s1))
              (fun a j st => @layout_draws _ _ FOCUS _ _ a j (entropy s1) st)
              (particles s1) 0 (entropy s1) i p eq_refl Hp)
    as (g & Hg & Hnth).
  unfold laid_out in Hp'. simpl in Hp', Hnth. rewrite Hnth in Hp'.
  inversion Hp' as [Ep']. clear Hp' Hnth.
  assert (Hnot : focus_is (focusTargetIdx s1) i = false).
  { unfold focus_is. destruct (focusTargetIdx s1) as [k|]; [|reflexivity].
    apply Nat.eqb_neq. intros ->. now elim Hfocus. }
  unfold focus_layout. rewrite Hnot.
  cbn [Math_random fst set_scale set_targetPos set_mesh targetPos vx vy vz
       nadd nmul lit Real.number Math_cos Math_sin Math_PI Real.scene_math].
  rewrite !Q2R_int. split; [reflexivity|].
  eexists. split; [|apply circle_norm].
  cbn [draws calls]. rewrite Hg, Hd.
  pose proof (Hdraw (S (calls g))). lra.
Qed.

End RealGeometry.

Section TickFacts.

Context {J : JSNumber} {SM : SceneMath J}.

(** [n] ticks advance each particle [n] times with the mode and focus
    target the scene had at the start. *)
Lemma ticks_particles (n : nat) (s : ChristmasScene) :
  particles (ticks n s)
  = map (Nat.iter n (fun q => update q (mode s) (focusTargetIdx s)))
        (particles s) /\
  mode (ticks n s) = mode s /\
  focusTargetIdx (ticks n s) = focusTargetIdx s.
Proof.
  induction n as [|n (IHp & IHm & IHf)].
  - simpl. rewrite map_id. repeat split.
  - unfold ticks in *. simpl. rewrite IHp, IHm, IHf, map_map. repeat split.
Qed.

Lemma ticks_nth_error (n : nat) (s : ChristmasScene) (i : nat) (p : Particle) :
  nth_error (particles s) i = Some p ->
  nth_error (particles (ticks n s)) i
  = Some (Nat.iter n (fun q => update q (mode s) (focusTargetIdx s)) p).
Proof.
  intros Hp. rewrite (proj1 (ticks_particles n s)).
  now apply map_nth_error.
Qed.

End TickFacts.

Section RealTicks.

Local Open Scope R_scope.

Lemma lit_dec (a : Z) (q : positive) :
  Q2R (a # q) = IZR a / IZR (Zpos q).
Proof. reflexivity. Qed.

Ltac ease_step :=
  unfold eased in *; rewrite <- ?tech_pow_Rmult;
  cbn [update SceneMode_eqb andb negb set_mesh mesh position rotation
       targetPos targetRot velocity originIndex
       Vector3_lerp Vector3_addScaledVector MathUtils_lerp
       vx vy vz ex ey ez nadd nsub nmul lit Real.number] in *;
  rewrite ?lit_dec in *; lra.

(** X20. Over the reals, in TREE mode [n] frame ticks leave each
    particle's target alone, bring its position to within 0.92^n of
    the initial gap to the target position, and its rotation to within
    0.94^n of the initial gap to the target rotation. *)
Theorem tree_ticks_converge (s : @ChristmasScene Real.number)
        (n i : nat) (p : Particle) :
  mode s = TREE ->
  nth_error (particles s) i = Some p ->
  exists q,
    nth_error (particles (ticks n s)) i = Some q /\
    target q = target p /\
    eased3 0.92 n (position (mesh p)) (targetPos p) (position (mesh q)) /\
    easedE 0.94 n (rotation (mesh p)) (targetRot p) (rotation (mesh q)).
Proof.
  intros Hmode Hp. rewrite (ticks_nth_error n s i Hp), Hmode.
  eexists. split; [reflexivity|].
  induction n as [|n (IHt & (IHx & IHy & IHz) & (IHa & IHb & IHc))].
  - repeat split; unfold eased; simpl; lra.
  - set (q := Nat.iter n _ p) in *. rewrite Nat.iter_succ. fold q.
    inversion IHt as [[Htp Htr]].
    split; [unfold target; cbn; now rewrite Htp, Htr|].
    unfold target in IHt. cbn in Htp, Htr.
    rewrite <- Htp, <- Htr in *.
    repeat split; ease_step.
Qed.

Lemma focus_is_true (f : option nat) (i : nat) :
  focus_is f i = true <-> f = Some i.
Proof.
  unfold focus_is. destruct f as [k|]; [|split; discriminate].
  rewrite Nat.eqb_eq. split; [now intros ->|now inversion 1].
Qed.

Ltac tick_step q :=
  rewrite Nat.iter_succ; fold q;
  unfold update; cbn [SceneMode_eqb andb negb].

(** The particle FOCUS is showing. *)
Lemma focused_ticks (f : option nat) (p : @Particle Real.number) (n : nat) :
  focus_is f (originIndex p) = true ->
  let q := Nat.iter n (fun q => update q FOCUS f) p in
  target q = target p /\ birth q = birth p /\
  eased3 0.96 n (position (mesh p)) (targetPos p) (position (mesh q)) /\
  easedE 0.94 n (rotation (mesh p)) (targetRot p) (rotation (mesh q)).
Proof.
  intros Hf. cbv zeta.
  induction n as [|n (IHt & IHb & (IHx & IHy & IHz) & (IHa & IHb' & IHc))].
  - repeat split; unfold eased; simpl; lra.
  - set (q := Nat.iter n _ p) in *. tick_step q.
    inversion IHt as [[Htp Htr]]. inversion IHb as [[Hty Hoi Hv]].
    rewrite Hoi, Hf. cbn [negb].
    split; [unfold target; cbn; now rewrite Htp, Htr|].
    split; [unfold birth; cbn; now rewrite Hty, Hoi, Hv|].
    rewrite <- Htp, <- Htr in *.
    repeat split; ease_step.
Qed.

(** The particles FOCUS has sent to the background. *)
Lemma background_ticks (f : option nat) (p : @Particle Real.number) (n : nat) :
  focus_is f (originIndex p) = false ->
  let q := Nat.iter n (fun q => update q FOCUS f) p in
  target q = target p /\ birth q = birth p /\
  eased3 0.96 n (position (mesh p))
         (offset (targetPos p) (velocity p) 1.25) (position (mesh q)) /\
  ex (rotation (mesh q))
  = ex (rotation (mesh p)) + INR n * (0.2 * vx (velocity p)) /\
  ey (rotation (mesh q))
  = ey (rotation (mesh p)) + INR n * (0.2 * vy (velocity p)) /\
  ez (rotation (mesh q)) = ez (rotation (mesh p)).
Proof.
  intros Hf. cbv zeta.
  induction n as [|n (IHt & IHb & (IHx & IHy & IHz) & IHa & IHb' & IHc)].
  - repeat split; unfold eased; simpl; lra.
  - set (q := Nat.iter n _ p) in *. tick_step q.
    inversion IHt as [[Htp Htr]]. inversion IHb as [[Hty Hoi Hv]].
    rewrite Hoi, Hf. cbn [negb].
    split; [unfold target; cbn; now rewrite Htp, Htr|].
    split; [unfold birth; cbn; now rewrite Hty, Hoi, Hv|].
    rewrite <- Htp, <- Hv in *. rewrite S_INR. unfold offset in *.
    repeat split; ease_step.
Qed.

(** X21. Over the reals, in FOCUS mode [n] frame ticks bring the
    focused particle to within 0.96^n of its initial gap to the target
    position (and 0.94^n for the rotation). Every other particle eases
    at the same rate, not towards its target but towards the point
    1.25 velocities beyond it, while its rotation about x and y has
    advanced by n·0.2·velocity and its rotation about z has not moved. *)
Theorem focus_ticks_settle (s : @ChristmasScene Real.number)
        (n i : nat) (p : Particle) :
  mode s = FOCUS ->
  nth_error (particles s) i = Some p ->
  exists q,
    nth_error (particles (ticks n s)) i = Some q /\
    target q = target p /\
    (focusTargetIdx s = Some (originIndex p) ->
     eased3 0.96 n (position (mesh p)) (targetPos p) (position (mesh q)) /\
     easedE 0.94 n (rotation (mesh p)) (targetRot p) (rotation (mesh q))) /\
    (focusTargetIdx s <> Some (originIndex p) ->
     eased3 0.96 n (position (mesh p))
            (offset (targetPos p) (velocity p) 1.25) (position (mesh q)) /\
     ex (rotation (mesh q))
     = ex (rotation (mesh p)) + INR n * (0.2 * vx (velocity p)) /\
     ey (rotation (mesh q))
     = ey (rotation (mesh p)) + INR n * (0.2 * vy (velocity p)) /\
     ez (rotation (mesh q)) = ez (rotation (mesh p))).
Proof.
  intros Hmode Hp. rewrite (ticks_nth_error n s i Hp), Hmode.
  eexists. split; [reflexivity|].
  destruct (focus_is (focusTargetIdx s) (originIndex p)) eqn:Hf.
  - destruct (@focused_ticks _ p n Hf) as (Ht & _ & Hpos & Hrot).
    split; [exact Ht|]. split; [now intros _|].
    intros Hno. apply focus_is_true in Hf. now elim Hno.
  - destruct (@background_ticks _ p n Hf) as (Ht & _ & Hrest).
    split; [exact Ht|]. split; [|now intros _].
    intros Hyes. apply focus_is_true in Hyes. congruence.
Qed.

(** X22. Over the reals, in SCATTER mode [n] frame ticks bring each
    particle to within 0.92^n of its initial gap to the target
    position, while its rotation has advanced by n·2.5·velocity about
    every axis, whatever the target rotation is. *)
Theorem scatter_ticks_spin (s : @ChristmasScene Real.number)
        (n i : nat) (p : Particle) :
  mode s = SCATTER ->
  nth_error (particles s) i = Some p ->
  exists q,
    nth_error (particles (ticks n s)) i = Some q /\
    target q = target p /\
    eased3 0.92 n (position (mesh p)) (targetPos p) (position (mesh q)) /\
    ex (rotation (mesh q))
    = ex (rotation (mesh p)) + INR n * (2.5 * vx (velocity p)) /\
    ey (rotation (mesh q))
    = ey (rotation (mesh p)) + INR n * (2.5 * vy (velocity p)) /\
    ez (rotation (mesh q))
    = ez (rotation (mesh p)) + INR n * (2.5 * vz (velocity p)).
Proof.
  intros Hmode Hp. rewrite (ticks_nth_error n s i Hp), Hmode.
  eexists. split; [reflexivity|].
  assert (H : let q := Nat.iter n
                         (fun q => update q SCATTER (focusTargetIdx s)) p in
              birth q = birth p /\ target q = target p /\
              eased3 0.92 n (position (mesh p)) (targetPos p)
                     (position (mesh q)) /\
              ex (rotation (mesh q))
              = ex (rotation (mesh p)) + INR n * (2.5 * vx (velocity p)) /\
              ey (rotation (mesh q))
              = ey (rotation (mesh p)) + INR n * (2.5 * vy (velocity p)) /\
              ez (rotation (mesh q))
              = ez (rotation (mesh p)) + INR n * (2.5 * vz (velocity p))).
  { cbv zeta.
    induction n as [|n (IHb & IHt & (IHx & IHy & IHz) & IHa & IHb' & IHc)].
    - repeat split; unfold eased; simpl; lra.
    - set (q := Nat.iter n _ p) in *. tick_step q.
      inversion IHt as [[Htp Htr]]. inversion IHb as [[Hty Hoi Hv]].
      split; [unfold birth; cbn; now rewrite Hty, Hoi, Hv|].
      split; [unfold target; cbn; now rewrite Htp, Htr|].
      rewrite <- Htp, <- Hv in *. rewrite S_INR.
      repeat split; ease_step. }
  exact (proj2 H).
Qed.

End RealTicks.

Section ShapeFacts.

Context {J : JSNumber} {SM : SceneMath J}.

(** The constructor, step by step. *)
Lemma new_ChristmasScene_shape (g : Random) :
  state_of (new_ChristmasScene g)
  = animate (state_of (addPhotoToScene (initDust (state_of (setMode TREE
      (initParticles_loop totalCount 0
         (mkScene [] new_Object3D TREE None g))))))).
Proof.
  unfold new_ChristmasScene, initParticles, initPhotoWall.
  generalize totalCount. intros n.
  rewrite setMode_leaving by discriminate. cbn [and_then state_of].
  unfold addPhotoToScene, new_Particle, Math_random.
  rewrite setMode_leaving by discriminate. reflexivity.
Qed.

Lemma addPhotoToScene_mainGroup (s : ChristmasScene) :
  mainGroup (state_of (addPhotoToScene s)) = mainGroup s.
Proof.
  unfold addPhotoToScene, new_Particle, Math_random.
  match goal with
  | |- context [setMode ?m ?s0] =>
      destruct (setMode_keeps m s0) as (_ & Hg & _); rewrite Hg
  end.
  reflexivity.
Qed.

Lemma initParticles_loop_mainGroup (remaining i : nat) (s : ChristmasScene) :
  mainGroup (initParticles_loop remaining i s) = mainGroup s.
Proof.
  revert i s. induction remaining as [|n IH]; intros i s; simpl.
  - reflexivity.
  - match goal with
    | |- context [let (_, _) := ?c in _] => destruct c as [ty g2]
    end.
    rewrite IH. reflexivity.
Qed.

Lemma new_ChristmasScene_mainGroup (g : Random) :
  mainGroup (state_of (new_ChristmasScene g)) = new_Object3D.
Proof.
  rewrite new_ChristmasScene_shape. generalize totalCount. intros n.
  unfold animate. cbn [mainGroup set_particles].
  rewrite addPhotoToScene_mainGroup. unfold initDust.
  cbn [mainGroup set_entropy].
  destruct (setMode_keeps TREE (initParticles_loop n 0
              (mkScene [] new_Object3D TREE None g))) as (_ & Hg & _).
  rewrite Hg. apply initParticles_loop_mainGroup.
Qed.

Lemma step_mainGroup (e : Event) (s : ChristmasScene) :
  match e with
  | EupdateInteraction c => True
  | _ => mainGroup (step e s) = mainGroup s
  end.
Proof.
  destruct e as [m| |c|]; simpl.
  - apply setMode_keeps.
  - apply addPhotoToScene_mainGroup.
  - exact I.
  - reflexivity.
Qed.

End ShapeFacts.

Section RealTilt.

Local Open Scope R_scope.

Lemma updateInteraction_tilt (c : option (@Point2 Real.number))
      (s : @ChristmasScene Real.number) :
  match c with Some c => in_frame c | None => True end ->
  tilt_ok s -> tilt_ok (updateInteraction c s).
Proof.
  destruct c as [c|]; [|now intros _].
  intros [[Hx0 Hx1] [Hy0 Hy1]] (Hp & Hy & Hr). unfold tilt_ok in *.
  cbn [updateInteraction mainGroup set_mainGroup rotation ex ey ez
       MathUtils_lerp nadd nsub nmul lit Real.number].
  rewrite ?lit_dec in *. repeat split; lra.
Qed.

(** X23. Over the reals, as long as every pointer handed to
    updateInteraction lies in the unit square, the scene group never
    tilts by more than 0.31 rad in pitch or 0.46 rad in yaw and never
    rolls, whatever else happens to the scene after its construction. *)
Theorem tilt_stays_bounded (g : @Random Real.number)
        (es : list (@Event Real.number)) :
  Forall pointer_in_frame es ->
  tilt_ok (run es (state_of (new_ChristmasScene g))).
Proof.
  intros Hes.
  assert (H0 : tilt_ok (state_of (new_ChristmasScene g))).
  { unfold tilt_ok. rewrite new_ChristmasScene_mainGroup.
    cbn [new_Object3D rotation zeroE ex ey ez lit Real.number].
    rewrite ?lit_dec. repeat split; lra. }
  revert H0. generalize (state_of (new_ChristmasScene g)).
  induction Hes as [|e es He _ IH]; intros s Hs.
  - exact Hs.
  - change (run (e :: es) s) with (run es (step e s)). apply IH.
    pose proof (step_mainGroup e s) as Hg.
    destruct e as [m| |c|]; cbn [step pointer_in_frame] in *.
    + unfold tilt_ok in *. rewrite Hg. exact Hs.
    + unfold tilt_ok in *. rewrite Hg. exact Hs.
    + apply updateInteraction_tilt; [now destruct c|exact Hs].
    + exact Hs.
Qed.

End RealTilt.

Section VelocityFacts.

Context {J : JSNumber} {SM : SceneMath J}.

Lemma velocity_of_birth (ps qs : list Particle) :
  map birth qs = map birth ps -> map velocity qs = map velocity ps.
Proof.
  intros Hb.
  assert (E : forall l : list Particle,
             map velocity l = map snd (map birth l))
    by (intros l; rewrite map_map; reflexivity).
  now rewrite (E qs), (E ps), Hb.
Qed.

Lemma setMode_velocity (m : SceneMode) (s : ChristmasScene) :
  map velocity (particles (state_of (setMode m s)))
  = map velocity (particles s).
Proof. apply velocity_of_birth. apply setMode_keeps. Qed.

Lemma addPhotoToScene_velocity (s : ChristmasScene) :
  map velocity (particles (state_of (addPhotoToScene s)))
  = map velocity (particles s)
    ++ [velocity (fst (new_Particle new_Object3D "PHOTO"
                         (length (particles s)) (entropy s)))].
Proof.
  unfold addPhotoToScene, new_Particle, Math_random.
  rewrite setMode_velocity. cbn [particles set_entropy set_particles].
  rewrite map_app. reflexivity.
Qed.

Lemma animate_velocity (s : ChristmasScene) :
  map velocity (particles (animate s)) = map velocity (particles s).
Proof. apply velocity_of_birth. apply animate_birth. Qed.

End VelocityFacts.

Section RealDrift.

Local Open Scope R_scope.

Lemma new_Particle_small_drift (m : @Object3D Real.number) (ty : string)
      (i : nat) (g : @Random Real.number) :
  unit_draws g -> small_drift (velocity (fst (new_Particle m ty i g))).
Proof.
  intros Hdraw. unfold new_Particle, Math_random, small_drift.
  cbn [fst velocity vx vy vz draws calls nsub nmul lit Real.number].
  rewrite ?lit_dec.
  pose proof (Hdraw (calls g)). pose proof (Hdraw (S (calls g))).
  pose proof (Hdraw (S (S (calls g)))). repeat split; lra.
Qed.

Lemma initParticles_loop_small_drift (remaining i : nat)
      (s : @ChristmasScene Real.number) :
  unit_draws (entropy s) ->
  Forall small_drift (map velocity (particles s)) ->
  Forall small_drift
         (map velocity (particles (initParticles_loop remaining i s))).
Proof.
  revert i s. induction remaining as [|n IH]; intros i s Hdraw Hall.
  - exact Hall.
  - cbn [initParticles_loop]. unfold Math_random at 1.
    match goal with
    | |- context [let (_, _) := ?c in _] =>
        assert (Hg : draws (snd c) = draws (entropy s))
          by (repeat match goal with
                     | |- context [if ?b then _ else _] => destruct b
                     end; reflexivity);
        destruct c as [ty g2]
    end.
    cbn [snd] in Hg.
    assert (Hg2 : unit_draws g2) by (unfold unit_draws; now rewrite Hg).
    pose proof (new_Particle_small_drift new_Object3D ty i Hg2) as Hnew.
    destruct (new_Particle new_Object3D ty i g2) as [p g3] eqn:Enew.
    assert (Hg3 : draws g3 = draws g2).
    { unfold new_Particle, Math_random in Enew. now inversion Enew. }
    cbn [fst] in Hnew.
    apply IH.
    + unfold unit_draws. cbn [entropy set_entropy]. now rewrite Hg3.
    + cbn [particles set_entropy set_particles]. rewrite map_app.
      apply Forall_app. split; [exact Hall|]. now constructor.
Qed.

(** X24. Over the reals, with Math.random in [0, 1), every particle's
    drift vector has all three components in [−0.075, 0.075), in the
    freshly built scene and after any sequence of events. *)
Theorem drift_is_small (g : @Random Real.number)
        (es : list (@Event Real.number)) :
  unit_draws g ->
  Forall small_drift
         (map velocity (particles (run es (state_of (new_ChristmasScene g))))).
Proof.
  intros Hdraw.
  assert (H0 : unit_draws (entropy (state_of (new_ChristmasScene g))) /\
               Forall small_drift
                 (map velocity (particles (state_of (new_ChristmasScene g))))).
  { split.
    - unfold unit_draws. now rewrite new_ChristmasScene_draws.
    - rewrite new_ChristmasScene_shape. generalize totalCount. intros n.
      rewrite animate_velocity, addPhotoToScene_velocity.
      apply Forall_app. split.
      + unfold initDust. cbn [particles set_entropy].
        rewrite setMode_velocity.
        apply initParticles_loop_small_drift; [exact Hdraw|constructor].
      + constructor; [|constructor].
        apply new_Particle_small_drift.
        unfold unit_draws, initDust. cbn [entropy set_entropy skip draws].
        destruct (setMode_keeps TREE (initParticles_loop n 0
                    (mkScene [] new_Object3D TREE None g)))
          as (_ & _ & _ & Hd).
        rewrite Hd, initParticles_loop_draws. exact Hdraw. }
  revert H0. generalize (state_of (new_ChristmasScene g)).
  induction es as [|e es IH]; intros s [Hd Hall].
  - exact Hall.
  - change (run (e :: es) s) with (run es (step e s)). apply IH. split.
    + unfold unit_draws. rewrite step_draws. exact Hd.
    + destruct e as [m| |c|]; cbn [step].
      * now rewrite setMode_velocity.
      * rewrite addPhotoToScene_velocity. apply Forall_app.
        split; [exact Hall|]. constructor; [|constructor].
        now apply new_Particle_small_drift.
      * now destruct c.
      * now rewrite animate_velocity.
Qed.

End RealDrift.

(* ================================================================== *)
(** * Instances of the properties above *)

Section MoreWitnesses.

Local Open Scope R_scope.

Lemma still_unit_draws : unit_draws Scenes.still.
Proof. intros k. simpl. lra. Qed.

(** A pinch on the album shows its one photo. *)
Lemma album_focus :
  exists s', setMode FOCUS Scenes.album = Normal s' /\
             focusTargetIdx s' = Some 1%nat.
Proof.
  destruct (choose_focus_picks Scenes.album still_unit_draws)
    as (t & Hin & Hc); [simpl; discriminate|].
  simpl in Hin. destruct Hin as [<-|[]].
  rewrite setMode_unfold, Hc. cbn [and_then].
  eexists. split; reflexivity.
Qed.

Lemma leaving_focus_resets_witness :
  exists s', setMode TREE Scenes.showing = Normal s' /\
             focusTargetIdx s' = None.
Proof.
  destruct (@leaving_focus_resets Real.number Real.scene_math TREE
              Scenes.showing)
    as (s' & Hrun & _ & Hfocus & _); [discriminate|].
  exists s'. split; assumption.
Defined.

Lemma focus_presentation_witness :
  exists s' p',
    setMode FOCUS Scenes.album = Normal s' /\
    nth_error (particles s') 1 = Some p' /\
    type p' = "PHOTO"%string /\
    scale (mesh p') = @mkVector3 Real.number 4.5 4.5 4.5.
Proof.
  destruct album_focus as (s' & Hrun & Hk).
  destruct (@focus_presentation Real.number Real.scene_math
              Scenes.album s' 1) as [(p & p' & _ & Hp' & Hty & _ & _ & Hsc) _].
  - split; [reflexivity|discriminate].
  - reflexivity.
  - exact Hrun.
  - exact Hk.
  - exists s', p'. repeat split; assumption.
Defined.

Lemma addPhoto_respaces_tree_witness :
  exists s',
    addPhotoToScene Scenes.pair = Normal s' /\
    map target (particles s')
    = map (tree_target 3) [0%nat; 1%nat; 2%nat].
Proof.
  apply (@addPhoto_respaces_tree Real.number Real.scene_math Scenes.pair).
  reflexivity.
Defined.

Lemma frame_without_hand_witness :
  exists s',
    @frame Real.number Real.gesture_math Real.scene_math FOCUS None
           Scenes.showing = Normal s' /\
    mode s' = TREE /\ focusTargetIdx s' = None.
Proof.
  destruct (proj2 (proj2 (@frame_without_hand Real.number Real.gesture_math
                            Real.scene_math FOCUS Scenes.showing)))
    as (s' & Hrun & _ & Hmode & Hfocus & _); [discriminate|].
  exists s'. repeat split; assumption.
Defined.

Lemma setMode_never_throws_witness :
  exists s', setMode FOCUS Scenes.album = Normal s' /\
             exists k, focusTargetIdx s' = Some k.
Proof.
  destruct (@setMode_never_throws FOCUS Scenes.album still_unit_draws)
    as (s' & Hrun & Hpick).
  exists s'. split; [exact Hrun|].
  apply Hpick; [reflexivity|simpl; discriminate].
Defined.

Lemma pinch_always_finds_photo_witness :
  exists s' k,
    setMode FOCUS (state_of (new_ChristmasScene Scenes.still)) = Normal s' /\
    focusTargetIdx s' = Some k.
Proof.
  apply (@pinch_always_finds_photo
           (state_of (new_ChristmasScene Scenes.still))).
  - apply reach_new.
  - unfold unit_draws. rewrite new_ChristmasScene_draws.
    exact still_unit_draws.
Defined.


Lemma tree_targets_on_cone_witness :
  exists s' p',
    setMode TREE Scenes.pair = Normal s' /\
    nth_error (particles s') 1 = Some p' /\
    -12 <= vy (targetPos p') < 14.
Proof.
  destruct (@tree_targets_on_cone Scenes.pair 1 (Scenes.ornament 1) eq_refl)
    as (s' & p' & Hrun & Hp' & Hy & _).
  exists s', p'. repeat split; try assumption; apply Hy.
Defined.

Lemma scatter_height_is_linear_witness :
  exists s' p',
    setMode SCATTER Scenes.pair = Normal s' /\
    nth_error (particles s') 1 = Some p' /\
    vz (targetPos p') = (8 + 0 * 14) * (-1 + 2 * INR 1 / INR 2).
Proof.
  destruct (@scatter_height_is_linear Scenes.pair 1 (Scenes.ornament 1)
              eq_refl)
    as (s' & p' & Hrun & Hp' & _ & Hz).
  exists s', p'. repeat split; assumption.
Defined.

Lemma focus_background_ring_witness :
  exists s' p',
    setMode FOCUS Scenes.album = Normal s' /\
    nth_error (particles s') 0 = Some p' /\
    vz (targetPos p') = -15.
Proof.
  destruct album_focus as (s' & Hrun & Hk).
  assert (Hlen : (0 < length (particles s'))%nat).
  { pose proof (setMode_identity FOCUS Scenes.album) as Hid.
    rewrite Hrun in Hid. apply (f_equal (@length _)) in Hid.
    rewrite !length_map in Hid. simpl in Hid. rewrite Hid. lia. }
  destruct (nth_error (particles s') 0) as [p'|] eqn:Hp';
    [|apply nth_error_None in Hp'; lia].
  exists s', p'. split; [exact Hrun|]. split; [exact Hp'|].
  apply (@focus_background_ring Scenes.album s' 0 p' still_unit_draws Hrun).
  - rewrite Hk. discriminate.
  - exact Hp'.
Defined.

Lemma tree_ticks_converge_witness :
  exists q,
    nth_error (particles (ticks 2 Scenes.pair)) 1 = Some q /\
    target q = target (Scenes.ornament 1).
Proof.
  destruct (@tree_ticks_converge Scenes.pair 2 1 (Scenes.ornament 1)
              eq_refl eq_refl) as (q & Hq & Ht & _).
  exists q. split; assumption.
Defined.

Lemma focus_ticks_settle_witness :
  exists q,
    nth_error (particles (ticks 2 Scenes.showing)) 1 = Some q /\
    target q = target (Scenes.photo 1).
Proof.
  destruct (@focus_ticks_settle Scenes.showing 2 1 (Scenes.photo 1)
              eq_refl eq_refl) as (q & Hq & Ht & _).
  exists q. split; assumption.
Defined.

Lemma scatter_ticks_spin_witness :
  exists q,
    nth_error (particles (ticks 2 Scenes.scattered)) 0 = Some q /\
    target q = target (Scenes.ornament 0).
Proof.
  destruct (@scatter_ticks_spin Scenes.scattered 2 0 (Scenes.ornament 0)
              eq_refl eq_refl) as (q & Hq & Ht & _).
  exists q. split; assumption.
Defined.

Lemma tilt_stays_bounded_witness :
  tilt_ok (run [EupdateInteraction (Some (@mkPoint2 Real.number 1 0));
                EsetMode SCATTER; Etick]
               (state_of (new_ChristmasScene Scenes.still))).
Proof.
  apply tilt_stays_bounded.
  repeat constructor; simpl; lra.
Defined.

Lemma drift_is_small_witness :
  Forall small_drift
         (map velocity
              (particles (run [EaddPhoto; Etick]
                              (state_of (new_ChristmasScene Scenes.still))))).
Proof. exact (@drift_is_small Scenes.still [EaddPhoto; Etick] still_unit_draws). Defined.

End MoreWitnesses.
